(* ===== verification/_CoqProject ===== *)
-Q . S2P
Prelude.v
JsObject.v
Types.v
Editor.v
Render.v
Session.v
Spec.v
