(* ===== verification/Prelude.v ===== *)
(** * A verification library for the parameter editor of sfgardev/selsup

    The repository is one React/TypeScript file, [src/src/App.tsx] (165
    lines).  It declares the data interfaces [Param], [ParamValue<T>],
    [Model<T>] and [Props<T>] (lines 148-165), a text control [ParamInput]
    (lines 17-39), the editor component [ParamEditor] (lines 41-114) and a
    demonstration root [App] (lines 116-145).  [ParamEditor] keeps one piece
    of React state, [valuesByParamIdDict], a plain JS object keyed by the
    parameter id.  Its parts interact as follows:
    - the [useState] initialiser (lines 45-67) builds the dictionary from the
      declared [params] and the initial [model.paramValues];
    - [renderParams] (lines 83-100) maps every declared parameter to a
      [ParamInput] when the parameter is of type ['string'] and its slot holds
      a string, to [null] otherwise; the control's [onChange] is a closure over
      [param.id] that calls [onParamInputChange];
    - [onParamInputChange] (lines 73-81) queues a functional state update
      that copies the dictionary with one slot replaced;
    - [getModel] (lines 69-71) returns [Object.values] of the dictionary and
      the "get model" button logs it (line 107).

    ** Files (in dependency order)
    - [Prelude] (this file): the notation scope [editor_scope], the hint
      databases [editor] and [editor_rw], the tactics [case_decides] and
      [decide_by_eval], and generic lemmas on folds, filters and [last].
    - [JsObject]: the part of the ECMAScript object model the code relies on:
      an ordinary object with integer keys as an association list in creation
      order, [[Get]] ([obj_get]), [[Set]] ([obj_set]: in place for an
      existing key, appended otherwise), [OrdinaryOwnPropertyKeys]
      ([own_keys]: array indices ascending, then the other keys in creation
      order), [Object.values] ([obj_values]) and the spread [{...o}]
      ([obj_spread]); the observational equivalence [≡ₒ] with its [Proper]
      instances, so that setoid rewriting replaces a copy by its original.
    - [Types]: the interfaces [Param], [ParamValue], [Model], [Props]
      (lines 148-165), the dictionary entry (lines 46-53), run-time values
      with [typeof], and the props of [App] (lines 116-145).
    - [Editor]: the state operations of [ParamEditor]: [init_dict] (the
      [useState] initialiser, built from [declare_slots] and
      [overlay_values]), the updater [onParamInputChange] and [getModel].
    - [Render]: [ParamInput] and the dispatcher [renderParams], with the
      [TypeError] of reading [.value] of a missing slot as an error value and
      the extension point of line 97 as a parameter.
    - [Session]: the React hook runtime of a mounted [ParamEditor] as a step
      relation: committed dictionary, queue of functional updaters, controls of
      the last render and the log of the "get model" button; change events,
      re-renders and clicks interleave freely.
    - [Spec]: the abstract reconciler of the specification (section 4.2) on
      stdpp's [gmap], with [initialize] and [setValue] (failing with
      [UnknownParameterError]), and the refinement proofs.

    ** What the theorems show (claims C1-C25)
    - Initialisation (C1-C3, Editor): the key set is the declared ids plus the
      ids of the initial model; exactly the declared ids when the model names
      declared ids only; initial values round-trip into their slots.
    - One update (C4-C7, Editor): only the slot of the id changes; the
      enumeration order is kept for a known id; an unknown id gets an entry
      without [id] and [name] instead of an error; last write wins.
    - [getModel] (C8-C9, Editor): entries come in ascending id order, not in
      declaration order, and never-filled slots are included.
    - Dispatcher (C10-C14, Render): a control exists only for a ['string']
      parameter whose slot holds a string and reports edits for its own id; a
      slot without a string gives no control; no [TypeError] when every
      declared id has a slot, a [TypeError] otherwise; filling the "other
      types" branch changes none of the controls the code renders.
    - Running editor (C15-C20, Session), by induction over reachable
      sessions with the invariant [sess_inv]: the key set never changes; the
      editor never crashes; a declared parameter without an initial string
      value never gets a control and can never be edited (a defect of line
      86); a string parameter can be set to any text (liveness); batching of
      queued edits does not matter.
    - Refinement (C21-C23, Spec): the initialiser implements [initialize], one
      update simulates one [setValue], and every reachable session implements
      a state the abstract machine reaches by [setValue] steps.
    - The "get model" log (C24-C25, Session): every logged model has the ids
      and names of the initial [getModel] in the same order, and with unique
      array-index ids it lists the declared ids in ascending order, whatever
      edits came before.  The JS object lemmas of [JsObject] (the spread copy
      is indistinguishable from the original) carry these proofs.

    ** Bounds and modelling choices
    - Parameter ids are JS numbers used as property keys.  They are modelled
      as [Z]: two safe integers ([|id| <= 2^53 - 1]) give the same key exactly
      when they are equal, and a key is an array index when
      [0 <= id < 2^32 - 1] ([array_index_bound]), which decides the
      enumeration order of [Object.values] and of the spread.  Non-integer
      ids are not modelled.
    - Numbers held as values are kept as [Z]: the code only inspects their
      [typeof].  [param.type] is kept as a run-time string.
    - No fuel is needed: every operation is a structural fold over finite
      lists, so every definition is total and executable.
    - [step] allows any number of queued updates between renders, a superset
      of React's schedules (React flushes after each discrete event), so the
      invariants hold of every schedule React produces.

    ** Not modelled
    - Styling (the [className] strings), the DOM, React's reconciliation of
      the element tree and the text printed by [console.log]: only the data
      the code computes (elements, the logged model) is kept.
    - Re-renders caused by the parent [App] with new props: [App] passes
      constant props, so the props of a session are fixed.
*)

From stdpp Require Export ssreflect base list gmap strings.
From Stdlib Require Export ZArith Lia Sorted.

Declare Scope editor_scope.
Delimit Scope editor_scope with editor.
Open Scope Z_scope.

Create HintDb editor.
Create Rewrite HintDb editor_rw.
#[export] Set Warnings "-rewrite-rw,-clear-no-such-hyp".
Set Warnings "-rewrite-rw,-clear-no-such-hyp".

(** ** Tactics *)

(** Split every [decide] of the goal and of the hypotheses, discarding the
    impossible branches. *)
Ltac case_decides :=
  repeat (case_decide; simplify_eq/=; try done).

(** Decide a proposition about concrete data by evaluating its boolean
    decision procedure. *)
Ltac decide_by_eval := apply (bool_decide_unpack _); vm_compute; reflexivity.

(** ** Generic lemmas on folds *)

Section fold_lemmas.
  Context {A B : Type}.

  (** An invariant of every step of a left fold holds of its result. *)
Lemma fold_left_invariant (P : A -> Prop) (f : A -> B -> A) (l : list B) (a : A) :
    (forall a' x, x ∈ l -> P a' -> P (f a' x)) -> P a -> P (fold_left f l a).
  Proof.
    revert a. induction l as [|x l IH]; intros a Hstep Ha; simpl; [done|].
    apply IH; [|apply Hstep; [left | done]].
    intros a' y Hy. apply Hstep. by right.
  Qed.
End fold_lemmas.

(** ** Generic lemmas on filters *)

Section filter_lemmas.
  Context {A : Type} (P : A -> Prop) `{!forall x, Decision (P x)}.

Lemma filter_all (l : list A) : Forall P l -> filter P l = l.
  Proof.
    induction 1 as [|x l Hx _ IH]; [done|].
    rewrite filter_cons_True; [by f_equal | done].
  Qed.

Lemma Forall_filter (l : list A) : Forall P (filter P l).
  Proof. apply Forall_forall. intros x Hx. by apply list_elem_of_filter in Hx as [? _]. Qed.

Lemma filter_none (l : list A) : Forall (fun x => ~ P x) l -> filter P l = [].
  Proof.
    induction 1 as [|x l Hx _ IH]; [done|]. rewrite filter_cons_False; done.
  Qed.

  (** The last element of a filter, after one more element. *)
Lemma last_filter_snoc (l : list A) x :
    last (filter P (l ++ [x])) = if decide (P x) then Some x else last (filter P l).
  Proof.
    rewrite filter_app. case_decide.
    - by rewrite filter_cons_True // filter_nil last_snoc.
    - by rewrite filter_cons_False // filter_nil app_nil_r.
  Qed.

Lemma last_filter_is_Some (l : list A) :
    is_Some (last (filter P l)) <-> exists x, x ∈ l /\ P x.
  Proof.
    rewrite -not_eq_None_Some last_None. split.
    - intros Hne. destruct (filter P l) as [|x l'] eqn:Hf; [done|].
      assert (Hx : x ∈ filter P l) by (rewrite Hf; left).
      apply list_elem_of_filter in Hx as [? ?]. by exists x.
    - intros (x & Hx & HP) Hnil.
      assert (Hx' : x ∈ filter P l) by (by apply list_elem_of_filter).
      by rewrite Hnil in Hx'; apply elem_of_nil in Hx'.
  Qed.
End filter_lemmas.
