(* ===== verification/JsObject.v ===== *)
(** * The ECMAScript ordinary object used as a dictionary

    [ParamEditor] stores its state in a plain JS object indexed by parameter
    ids ([Record<number, ...>], App.tsx lines 46-53) and reads it back with
    [Object.values] (line 70) and the spread [{...prev}] (line 75).  This file
    models the part of the language semantics those lines use: an object with
    integer property keys as an association list in creation order, [[Get]],
    [[Set]] of a data property, [OrdinaryOwnPropertyKeys] (array indices in
    ascending order, then the other keys in creation order), [Object.values]
    and [CopyDataProperties].  Two objects are observationally equivalent
    ([obj_equiv]) when they enumerate the same keys in the same order and
    agree on every key; every operation respects it. *)

From S2P Require Import Prelude.

(** ** Property keys *)

(** [2^32 - 1]: an integer key [k] is an array index when [0 <= k < 2^32 - 1]. *)
Definition array_index_bound : Z := 4294967295.

Definition is_array_index (k : Z) : Prop := 0 <= k < array_index_bound.

#[export] Instance is_array_index_dec (k : Z) : Decision (is_array_index k) :=
  ltac:(unfold is_array_index; apply _).

(** Insertion of an array index after the keys not greater than it. *)
Fixpoint insert_key (k : Z) (ks : list Z) : list Z :=
  match ks with
  | [] => [k]
  | k' :: ks' => if decide (k < k') then k :: ks else k' :: insert_key k ks'
  end.

(** The ascending order of the array-index keys. *)
Definition sort_keys (ks : list Z) : list Z :=
  fold_left (fun acc k => insert_key k acc) ks [].

Section JsObject.
  Context {A : Type}.

  (** ** Objects, [[Get]] and [[Set]] *)

  (** An object's own data properties, in creation order. *)
Definition obj_empty : list (Z * A) := [].

Definition obj_keys (o : list (Z * A)) : list Z := o.*1.

Fixpoint obj_get (o : list (Z * A)) (k : Z) : option A :=
    match o with
    | [] => None
    | (k', v) :: o' => if decide (k = k') then Some v else obj_get o' k
    end.

  (** [o[k] = v]: an existing property keeps its place, a new one is created
      last. *)
Fixpoint obj_set (o : list (Z * A)) (k : Z) (v : A) : list (Z * A) :=
    match o with
    | [] => [(k, v)]
    | (k', v') :: o' =>
        if decide (k = k') then (k', v) :: o' else (k', v') :: obj_set o' k v
    end.

  (** ** Enumeration *)

  (** [OrdinaryOwnPropertyKeys]. *)
Definition own_keys (o : list (Z * A)) : list Z :=
    sort_keys (filter is_array_index (obj_keys o))
    ++ filter (fun k => ~ is_array_index k) (obj_keys o).

  (** [Object.values o]. *)
Definition obj_values (o : list (Z * A)) : list A :=
    omap (obj_get o) (own_keys o).

  (** [{...o}]: [CopyDataProperties] into a fresh object. *)
Definition obj_spread (o : list (Z * A)) : list (Z * A) :=
    fold_left (fun acc k => match obj_get o k with
                            | Some v => obj_set acc k v
                            | None => acc
                            end) (own_keys o) obj_empty.

  (** Well-formedness: no key is listed twice. *)
Definition obj_wf (o : list (Z * A)) : Prop := NoDup (obj_keys o).

  (** Observational equivalence. *)
Definition obj_equiv (o1 o2 : list (Z * A)) : Prop :=
    own_keys o1 = own_keys o2 /\ forall k, obj_get o1 k = obj_get o2 k.
End JsObject.

Arguments obj_empty {A}.

Declare Scope jsobj_scope.
Delimit Scope jsobj_scope with jsobj.
Notation "o .[ k ]" := (obj_get o k) (at level 1, format "o .[ k ]") : jsobj_scope.
Notation "o .[ k := v ]" := (obj_set o k v) (at level 1, format "o .[ k  :=  v ]") : jsobj_scope.
Infix "≡ₒ" := obj_equiv (at level 70) : jsobj_scope.
Open Scope jsobj_scope.

(** ** The order of array-index keys *)

Section sort_keys_lemmas.
  Implicit Types (k x : Z) (l ks : list Z).

Lemma insert_key_perm k ks : insert_key k ks ≡ₚ k :: ks.
  Proof.
    induction ks as [|k' ks IH]; simpl; [done|].
    case_decide; [done|]. rewrite IH. by constructor.
  Qed.

Lemma sort_keys_app_last l k : sort_keys (l ++ [k]) = insert_key k (sort_keys l).
  Proof. unfold sort_keys. by rewrite fold_left_app. Qed.

Lemma sort_keys_perm l : sort_keys l ≡ₚ l.
  Proof.
    induction l as [|k l IH] using rev_ind; [done|].
    rewrite sort_keys_app_last insert_key_perm IH. apply Permutation_cons_append.
  Qed.

Lemma insert_key_sorted k ks :
    StronglySorted Z.le ks -> StronglySorted Z.le (insert_key k ks).
  Proof.
    induction 1 as [|k' ks Hs IH Hall]; simpl; [repeat constructor|].
    case_decide.
    - constructor; [by constructor|]. constructor; [lia|].
      eapply Forall_impl; [exact Hall|]. simpl; lia.
    - constructor; [done|]. apply Forall_forall. intros y Hy.
      rewrite insert_key_perm in Hy. apply elem_of_cons in Hy as [->|Hy]; [lia|].
      by eapply Forall_forall.
  Qed.

Lemma sort_keys_sorted l : StronglySorted Z.le (sort_keys l).
  Proof.
    induction l as [|k l IH] using rev_ind; [constructor|].
    rewrite sort_keys_app_last. by apply insert_key_sorted.
  Qed.

Lemma insert_key_last k l : Forall (fun y => y <= k) l -> insert_key k l = l ++ [k].
  Proof.
    induction 1 as [|y l Hy _ IH]; simpl; [done|].
    case_decide; [lia|]. by f_equal.
  Qed.

Lemma sorted_app_last_inv (R : Z -> Z -> Prop) l k :
    StronglySorted R (l ++ [k]) -> StronglySorted R l /\ Forall (fun y => R y k) l.
  Proof.
    induction l as [|y l IH]; simpl; intros Hs; [split; constructor|].
    inversion Hs as [|? ? Hs' Hall]; subst. destruct (IH Hs') as [H1 H2].
    apply Forall_app in Hall as [Hl Hk].
    split; constructor; [done|done| |done]. by inversion Hk.
  Qed.

  (** Sorting an already sorted list changes nothing. *)
Lemma sort_keys_id l : StronglySorted Z.le l -> sort_keys l = l.
  Proof.
    induction l as [|k l IH] using rev_ind; intros Hs; [done|].
    apply sorted_app_last_inv in Hs as [Hs Hall].
    by rewrite sort_keys_app_last IH // insert_key_last.
  Qed.
End sort_keys_lemmas.

(** ** Laws of [[Get]], [[Set]] and the key list *)

Section obj_lemmas.
  Context {A : Type}.
  Implicit Types (o : list (Z * A)) (k : Z) (v : A).

Lemma obj_get_set o k k' v :
    o.[k := v].[k'] = if decide (k' = k) then Some v else o.[k'].
  Proof.
    induction o as [|[k1 v1] o IH]; simpl; case_decides; by rewrite IH; case_decides.
  Qed.

Lemma obj_get_set_eq o k v : o.[k := v].[k] = Some v.
  Proof. rewrite obj_get_set. by case_decide. Qed.

Lemma obj_get_set_ne o k k' v : k' <> k -> o.[k := v].[k'] = o.[k'].
  Proof. intros. rewrite obj_get_set. by case_decide. Qed.

Lemma elem_of_obj_keys o k : k ∈ obj_keys o <-> is_Some (o.[k]).
  Proof.
    induction o as [|[k1 v1] o IH]; simpl.
    - split; [by intros ?%elem_of_nil | by intros [? ?]].
    - rewrite elem_of_cons IH. case_decide; naive_solver.
  Qed.

Lemma obj_keys_set o k v :
    obj_keys (o.[k := v]) =
      if decide (k ∈ obj_keys o) then obj_keys o else obj_keys o ++ [k].
  Proof.
    induction o as [|[k1 v1] o IH]; [done|].
    cbn [obj_set]. destruct (decide (k = k1)) as [->|Hne]; cbv iota.
    - rewrite /obj_keys /=. repeat case_decide; simpl; try done; set_solver.
    - change (obj_keys ((k1, v1) :: o.[k := v])) with (k1 :: obj_keys (o.[k := v])).
      change (obj_keys ((k1, v1) :: o)) with (k1 :: obj_keys o).
      rewrite IH. repeat case_decide; simpl; try done; set_solver.
  Qed.

  (** Setting a key twice keeps the second value only. *)
Lemma obj_set_set_eq o k v1 v2 : o.[k := v1].[k := v2] = o.[k := v2].
  Proof.
    induction o as [|[k1 w] o IH]; simpl; [by rewrite decide_True|].
    case_decide; simpl; [by rewrite decide_True|]. by rewrite decide_False // IH.
  Qed.

Lemma obj_wf_empty : obj_wf (@obj_empty A).
  Proof. constructor. Qed.

Lemma obj_wf_set o k v : obj_wf o -> obj_wf (o.[k := v]).
  Proof.
    rewrite /obj_wf obj_keys_set. case_decide as Hin; [done|].
    intros Hnd. apply NoDup_app. split; [done|]. split; [set_solver | apply NoDup_singleton].
  Qed.

  (** The enumeration order lists every key exactly once. *)
Lemma own_keys_perm o : own_keys o ≡ₚ obj_keys o.
  Proof.
    rewrite /own_keys sort_keys_perm. apply filter_app_complement.
  Qed.

Lemma elem_of_own_keys o k : k ∈ own_keys o <-> is_Some (o.[k]).
  Proof. by rewrite own_keys_perm elem_of_obj_keys. Qed.

Lemma own_keys_NoDup o : obj_wf o -> NoDup (own_keys o).
  Proof. rewrite /obj_wf. by rewrite own_keys_perm. Qed.
End obj_lemmas.

#[export] Hint Resolve obj_wf_empty obj_wf_set own_keys_NoDup : editor.
#[export] Hint Rewrite @obj_get_set_eq : editor_rw.

(** ** Where a new key lands in the enumeration order *)

(** The enumeration order after creating the fresh key [k]: an array index
    joins the ascending run of array indices, any other key goes last. *)
Definition own_keys_add (k : Z) (ks : list Z) : list Z :=
  if decide (is_array_index k)
  then insert_key k (filter is_array_index ks) ++ filter (fun k => ~ is_array_index k) ks
  else ks ++ [k].

Section own_keys_lemmas.
  Context {A : Type}.
  Implicit Types (o : list (Z * A)) (k : Z) (v : A).

Lemma Forall_sort_keys (P : Z -> Prop) l : Forall P l -> Forall P (sort_keys l).
  Proof.
    rewrite !Forall_forall. intros HP x. rewrite sort_keys_perm. apply HP.
  Qed.

Lemma own_keys_filter_index o :
    filter is_array_index (own_keys o) = sort_keys (filter is_array_index (obj_keys o)).
  Proof.
    rewrite /own_keys filter_app filter_all; [|by apply Forall_sort_keys, Forall_filter].
    rewrite (filter_none _ (filter _ _)); [by rewrite app_nil_r|].
    eapply Forall_impl; [apply Forall_filter|]. naive_solver.
  Qed.

Lemma own_keys_filter_other o :
    filter (fun k => ~ is_array_index k) (own_keys o)
    = filter (fun k => ~ is_array_index k) (obj_keys o).
  Proof.
    rewrite /own_keys filter_app filter_none.
    - simpl. apply filter_all, Forall_filter.
    - eapply Forall_impl; [apply Forall_sort_keys, Forall_filter|]. naive_solver.
  Qed.

  (** Setting a key: an existing key keeps its place in the enumeration, a
      fresh key is placed by [own_keys_add]. *)
Lemma own_keys_set o k v :
    own_keys (o.[k := v]) =
      if decide (k ∈ own_keys o) then own_keys o else own_keys_add k (own_keys o).
  Proof.
    assert (Hiff : k ∈ own_keys o <-> k ∈ obj_keys o) by by rewrite own_keys_perm.
    rewrite {1}/own_keys obj_keys_set.
    destruct (decide (k ∈ obj_keys o)) as [Hin|Hin].
    - by rewrite (decide_True _ _ (proj2 Hiff Hin)).
    - rewrite (decide_False _ _ (fun H => Hin (proj1 Hiff H))). cbv iota.
      rewrite /own_keys_add own_keys_filter_index own_keys_filter_other.
      rewrite !filter_app /own_keys. case_decide.
      + rewrite filter_cons_True // filter_cons_False; [|naive_solver].
        by rewrite /= !app_nil_r sort_keys_app_last.
      + rewrite filter_cons_False // filter_cons_True //= app_nil_r app_assoc //.
  Qed.
End own_keys_lemmas.

(** ** Observational equivalence and the spread copy *)

Section equiv_lemmas.
  Context {A : Type}.
  Implicit Types (o : list (Z * A)) (k : Z) (v : A).

#[export] Instance obj_equiv_equivalence : Equivalence (@obj_equiv A).
  Proof.
    split.
    - done.
    - intros o1 o2 [Hk Hg]. split; [done|]. intros k. by rewrite Hg.
    - intros o1 o2 o3 [Hk1 Hg1] [Hk2 Hg2]. split; [congruence|]. intros k. congruence.
  Qed.

#[export] Instance obj_get_proper : Proper (obj_equiv ==> eq ==> eq) (@obj_get A).
  Proof. intros o1 o2 [_ Hg] k ? <-. apply Hg. Qed.

#[export] Instance own_keys_proper : Proper (obj_equiv ==> eq) (@own_keys A).
  Proof. by intros o1 o2 [Hk _]. Qed.

#[export] Instance obj_values_proper : Proper (obj_equiv ==> eq) (@obj_values A).
  Proof.
    intros o1 o2 [Hk Hg]. rewrite /obj_values Hk.
    apply list_omap_ext, Forall2_same_length_lookup. split; [done|]. naive_solver.
  Qed.

#[export] Instance obj_set_proper :
    Proper (obj_equiv ==> eq ==> eq ==> obj_equiv) (@obj_set A).
  Proof.
    intros o1 o2 [Hk Hg] k ? <- v ? <-. split.
    - by rewrite !own_keys_set Hk.
    - intros k'. by rewrite !obj_get_set Hg.
  Qed.

  (** One step of [CopyDataProperties] from [o]. *)
Definition copy_step (o acc : list (Z * A)) (k : Z) : list (Z * A) :=
    match o.[k] with Some v => acc.[k := v] | None => acc end.

Lemma copy_steps_spec o ks acc :
    NoDup ks -> (forall k, k ∈ ks -> k ∉ obj_keys acc) ->
    (forall k, k ∈ ks -> is_Some (o.[k])) ->
    obj_keys (fold_left (copy_step o) ks acc) = obj_keys acc ++ ks /\
    forall k', (fold_left (copy_step o) ks acc).[k'] =
               if decide (k' ∈ ks) then o.[k'] else acc.[k'].
  Proof.
    revert acc. induction ks as [|k ks IH]; intros acc Hnd Hfresh Hdef.
    - simpl. split; [by rewrite app_nil_r|]. by intros k'.
    - apply NoDup_cons in Hnd as [Hk Hnd].
      destruct (Hdef k) as [v Hv]; [set_solver|].
      change (fold_left (copy_step o) (k :: ks) acc)
        with (fold_left (copy_step o) ks (copy_step o acc k)).
      replace (copy_step o acc k) with (acc.[k := v]) by (by rewrite /copy_step Hv).
      destruct (IH (acc.[k := v])) as [Hkeys Hget]; [done| |set_solver|].
      { intros k' Hk'. rewrite obj_keys_set decide_False; [|by apply Hfresh; set_solver].
        set_solver. }
      split.
      + rewrite Hkeys obj_keys_set decide_False; [|by apply Hfresh; set_solver].
        by rewrite -app_assoc.
      + intros k'. rewrite Hget obj_get_set.
        repeat case_decide; subst; try congruence; set_solver.
  Qed.

Lemma obj_spread_spec o :
    obj_wf o ->
    obj_keys (obj_spread o) = own_keys o /\
    forall k, (obj_spread o).[k] = o.[k].
  Proof.
    intros Hwf.
    destruct (copy_steps_spec o (own_keys o) obj_empty) as [Hkeys Hget];
      [by apply own_keys_NoDup | set_solver | by intros k ?%elem_of_own_keys |].
    split; [done|]. intros k. rewrite /obj_spread -/(copy_step o) Hget.
    case_decide as Hin; [done|]. symmetry. apply eq_None_not_Some.
    by rewrite -elem_of_own_keys.
  Qed.

Lemma obj_wf_spread o : obj_wf o -> obj_wf (obj_spread o).
  Proof.
    intros Hwf. rewrite /obj_wf (proj1 (obj_spread_spec o Hwf)). by apply own_keys_NoDup.
  Qed.

(** The spread copy enumerates the keys of the original in its order. *)
Lemma obj_spread_own_keys o : obj_wf o -> own_keys (obj_spread o) = own_keys o.
Proof.
  intros Hwf. destruct (obj_spread_spec o Hwf) as [Hkeys _].
  rewrite {1}/own_keys Hkeys own_keys_filter_index own_keys_filter_other.
  by rewrite sort_keys_id; [|apply sort_keys_sorted].
Qed.

  (** The spread copy [{...o}] of a well-formed object is indistinguishable
      from [o]: same keys in the same order, same value at every key. *)
Lemma obj_spread_equiv o : obj_wf o -> obj_spread o ≡ₒ o.
  Proof.
    intros Hwf. split; [by apply obj_spread_own_keys | apply (obj_spread_spec o Hwf)].
  Qed.
End equiv_lemmas.

#[export] Hint Resolve obj_wf_spread : editor.
