(* ===== verification/Types.v ===== *)
(** * The data interfaces of App.tsx

    The TypeScript interfaces [Param], [ParamValue<T>], [Model<T>] and
    [Props<T>] (App.tsx lines 148-165), the anonymous entry type of the
    editor's dictionary (lines 46-53) and the runtime values a parameter can
    hold ([T extends number | string | unknown[]], line 41).  TypeScript types
    are erased at run time, so a field the code compares at run time keeps
    its run-time type: [param.type] is compared with ['string'] (line 86) and
    is modelled as a string, not as the one-element literal type. *)

From S2P Require Import Prelude JsObject.

(** ** Run-time values *)

(** A value of type [T extends number | string | unknown[]].  Numbers are
    kept as integers: the code only inspects their [typeof]. *)
Inductive Val :=
| VString (s : string)
| VNumber (n : Z)
| VArray (xs : list Val).

(** [typeof v] for a value that may be [undefined] ([None]). *)
Definition typeof (v : option Val) : string :=
  match v with
  | None => "undefined"
  | Some (VString _) => "string"
  | Some (VNumber _) => "number"
  | Some (VArray _) => "object"
  end.

(** The string carried by a value whose [typeof] is ['string']. *)
Definition as_string (v : option Val) : option string :=
  match v with Some (VString s) => Some s | _ => None end.

(** ** The interfaces *)

(** [interface Param { id: number; name: string; type: 'string' }]. *)
Record Param := mkParam {
  param_id : Z;
  param_name : string;
  param_type : string
}.

(** [interface ParamValue<T> { paramId: number; value: T }]. *)
Record ParamValue := mkParamValue {
  paramId : Z;
  value : Val
}.

(** [interface Model<T> { paramValues: ParamValue<T>[] }]. *)
Record Model := mkModel { paramValues : list ParamValue }.

(** [interface Props<T> { params: Param[]; model: Model<T> }]. *)
Record Props := mkProps { params : list Param; model : Model }.

(** An entry of [valuesByParamIdDict]: [{ id, value, name }].  The type
    annotation promises all three fields, but an entry built by spreading
    [undefined] has only [value]; absent fields are [None]. *)
Record DictEntry := mkDictEntry {
  de_id : option Z;
  de_name : option string;
  de_value : option Val
}.

(** The dictionary itself: a JS object from parameter ids to entries. *)
Abbreviation Dict := (list (Z * DictEntry)).

(** The ids of a declaration list and of a list of values. *)
Definition param_ids (ps : list Param) : list Z := param_id <$> ps.
Definition value_ids (pvs : list ParamValue) : list Z := paramId <$> pvs.

(** ** The demonstration data of [App] (lines 116-145) *)

Definition App_params : list Param :=
  [mkParam 1 "Назначение" "string"; mkParam 2 "Длина" "string"].

Definition App_model : Model :=
  mkModel [mkParamValue 1 (VString "повседневное"); mkParamValue 2 (VString "макси")].

Definition App_props : Props := mkProps App_params App_model.
