(* ===== verification/Editor.v ===== *)
(** * The editor state of [ParamEditor]: initialisation, update, read-out

    [valuesByParamIdDict] (App.tsx lines 45-67) is built by two loops: one
    empty slot per declared parameter, then one overlay per initial value.
    [onParamInputChange] (lines 73-81) hands React an updater that copies the
    dictionary and replaces one slot; [getModel] (lines 69-71) returns
    [Object.values] of the dictionary.  This file models the three and proves
    their functional specification: the content of every slot after
    initialisation, the keys the dictionary holds, the effect of one update on
    each slot and on the enumeration order, last-write-wins, and the order and
    content of [getModel]. *)

From S2P Require Import Prelude JsObject Types.

Section Editor.

  (** ** Operations *)

  (** The empty slot of a declared parameter (line 56). *)
Definition declared_slot (p : Param) : DictEntry :=
    {| de_id := Some (param_id p); de_name := Some (param_name p); de_value := None |}.

  (** [for (const param of params) dict[param.id] = {...}] (lines 55-57). *)
Definition declare_slots (ps : list Param) : Dict :=
    fold_left (fun dict p => dict.[param_id p := declared_slot p]) ps obj_empty.

  (** [{...e, value: v}]: the spread of an entry, or of [undefined] when the
      key has no entry, with [value] overwritten (lines 61-62 and 77-78). *)
Definition with_value (e : option DictEntry) (v : option Val) : DictEntry :=
    match e with
    | Some e => {| de_id := de_id e; de_name := de_name e; de_value := v |}
    | None => {| de_id := None; de_name := None; de_value := v |}
    end.

  (** [for (const paramValue of model.paramValues) dict[paramValue.paramId] =
      {...dict[paramValue.paramId], value: paramValue.value}] (lines 59-64). *)
Definition overlay_values (pvs : list ParamValue) (dict : Dict) : Dict :=
    fold_left (fun dict pv =>
      dict.[paramId pv := with_value dict.[paramId pv] (Some (value pv))]) pvs dict.

  (** The [useState] initialiser (lines 45-67). *)
Definition init_dict (ps : list Param) (m : Model) : Dict :=
    overlay_values (paramValues m) (declare_slots ps).

  (** [getModel] (lines 69-71): [Object.values(valuesByParamIdDict)]. *)
Definition getModel (dict : Dict) : list DictEntry := obj_values dict.

  (** The updater [onParamInputChange(value, id)] passes to
      [setValuesByParamIdDict] (lines 73-81):
      [prev => ({...prev, [id]: {...prev[id], value}})]. *)
Definition onParamInputChange (v : Val) (id : Z) : Dict -> Dict :=
    fun prev => (obj_spread prev).[id := with_value prev.[id] (Some v)].

End Editor.

(** ** Reference functions for the specification *)

(** The last declaration of id [k], which the loop of lines 55-57 leaves in
    the dictionary. *)
Definition last_param (ps : list Param) (k : Z) : option Param :=
  last (filter (fun p => param_id p = k) ps).

(** The last initial value given for id [k]. *)
Definition last_value (pvs : list ParamValue) (k : Z) : option Val :=
  value <$> last (filter (fun pv => paramId pv = k) pvs).

(** The key set of a dictionary. *)
Definition dict_keys (d : Dict) : gset Z := list_to_set (obj_keys d).

(** ** Initialisation *)

Section init_lemmas.
  Implicit Types (ps : list Param) (pvs : list ParamValue) (d : Dict) (k : Z).

Lemma last_param_snoc ps p k :
    last_param (ps ++ [p]) k = if decide (param_id p = k) then Some p else last_param ps k.
  Proof. by rewrite /last_param last_filter_snoc. Qed.

Lemma last_value_snoc pvs pv k :
    last_value (pvs ++ [pv]) k =
      if decide (paramId pv = k) then Some (value pv) else last_value pvs k.
  Proof. rewrite /last_value last_filter_snoc. by case_decide. Qed.

Lemma with_value_twice e v1 v2 : with_value (Some (with_value e v1)) v2 = with_value e v2.
  Proof. by destruct e. Qed.

Lemma declare_slots_get ps k : (declare_slots ps).[k] = declared_slot <$> last_param ps k.
  Proof.
    induction ps as [|p ps IH] using rev_ind; [done|].
    rewrite /declare_slots fold_left_app -/(declare_slots ps) /= obj_get_set last_param_snoc.
    repeat case_decide; by subst.
  Qed.

Lemma overlay_values_get pvs d k :
    (overlay_values pvs d).[k] =
      match last_value pvs k with
      | Some v => Some (with_value d.[k] (Some v))
      | None => d.[k]
      end.
  Proof.
    induction pvs as [|pv pvs IH] using rev_ind; [done|].
    rewrite /overlay_values fold_left_app -/(overlay_values pvs d) /= obj_get_set.
    rewrite last_value_snoc. case_decide as Hk; [subst|].
    - rewrite decide_True // IH.
      destruct (last_value pvs _); [by rewrite with_value_twice | done].
    - by rewrite decide_False.
  Qed.

Lemma init_dict_wf ps m : obj_wf (init_dict ps m).
  Proof.
    rewrite /init_dict /overlay_values /declare_slots.
    do 2 (apply fold_left_invariant; [intros; repeat case_match; by eauto using obj_wf_set|]).
    apply obj_wf_empty.
  Qed.

Lemma last_param_is_Some ps k : is_Some (last_param ps k) <-> k ∈ param_ids ps.
  Proof.
    rewrite /last_param last_filter_is_Some /param_ids list_elem_of_fmap. naive_solver.
  Qed.

Lemma last_value_is_Some pvs k : is_Some (last_value pvs k) <-> k ∈ value_ids pvs.
  Proof.
    rewrite /last_value fmap_is_Some last_filter_is_Some /value_ids list_elem_of_fmap.
    naive_solver.
  Qed.
End init_lemmas.

#[export] Hint Resolve init_dict_wf : editor.

Section init_theorems.
  Implicit Types (ps : list Param) (m : Model) (k : Z).

  (** The content of every slot after initialisation. *)
Lemma init_dict_get ps m k :
    (init_dict ps m).[k] =
      match last_value (paramValues m) k with
      | Some v => Some (with_value (declared_slot <$> last_param ps k) (Some v))
      | None => declared_slot <$> last_param ps k
      end.
  Proof. by rewrite /init_dict overlay_values_get declare_slots_get. Qed.

Lemma init_dict_is_Some ps m k :
    is_Some ((init_dict ps m).[k]) <-> k ∈ param_ids ps \/ k ∈ value_ids (paramValues m).
  Proof.
    rewrite init_dict_get -last_param_is_Some -last_value_is_Some.
    destruct (last_value _ k); [naive_solver|].
    rewrite fmap_is_Some. naive_solver.
  Qed.

Lemma elem_of_dict_keys d k : k ∈ dict_keys d <-> is_Some (d.[k]).
  Proof. by rewrite /dict_keys elem_of_list_to_set elem_of_obj_keys. Qed.

  (** C1. After initialisation the dictionary has a key for every declared
      parameter and for every id of the initial model, and no other key. *)
Theorem init_dict_keys ps m :
    dict_keys (init_dict ps m)
    = list_to_set (param_ids ps) ∪ list_to_set (value_ids (paramValues m)).
  Proof.
    apply set_eq. intros k.
    rewrite elem_of_dict_keys init_dict_is_Some elem_of_union !elem_of_list_to_set //.
  Qed.

  (** C2. When every initial value names a declared parameter, the key set
      of the initial dictionary is exactly the set of declared ids. *)
Theorem init_dict_keys_declared ps m :
    value_ids (paramValues m) ⊆ param_ids ps ->
    dict_keys (init_dict ps m) = list_to_set (param_ids ps).
  Proof.
    intros Hsub. apply set_eq. intros k.
    rewrite elem_of_dict_keys init_dict_is_Some elem_of_list_to_set. set_solver.
  Qed.

  (** C3. Round trip of initial values: a declared parameter with an initial
      value gets a slot with its declared id and name and that value (the
      last one given when the model names the id several times). *)
Theorem init_dict_roundtrip ps m k p v :
    last_param ps k = Some p -> last_value (paramValues m) k = Some v ->
    (init_dict ps m).[k] =
      Some {| de_id := Some k; de_name := Some (param_name p); de_value := Some v |}.
  Proof.
    intros Hp Hv. rewrite init_dict_get Hv Hp /=. do 3 f_equal.
    rewrite /last_param in Hp. apply last_Some_elem_of, list_elem_of_filter in Hp.
    naive_solver.
  Qed.
End init_theorems.

(** ** One update *)

Section update_theorems.
  Implicit Types (prev : Dict) (v : Val) (id k : Z).

  (** The updater behaves as an in-place [[Set]] of one slot: the copy made
      by the spread is indistinguishable from the original. *)
Lemma onParamInputChange_equiv v id prev :
    obj_wf prev -> onParamInputChange v id prev ≡ₒ prev.[id := with_value prev.[id] (Some v)].
  Proof.
    intros Hwf. by rewrite /onParamInputChange obj_spread_equiv.
  Qed.

Lemma onParamInputChange_wf v id prev : obj_wf prev -> obj_wf (onParamInputChange v id prev).
  Proof. intros. apply obj_wf_set, obj_wf_spread. done. Qed.

  (** C4. One update replaces the slot of [id] by the old entry with the new
      value and leaves every other slot as it was. *)
Theorem onParamInputChange_get v id prev k :
    obj_wf prev ->
    (onParamInputChange v id prev).[k] =
      if decide (k = id) then Some (with_value prev.[id] (Some v)) else prev.[k].
  Proof. intros Hwf. by rewrite (onParamInputChange_equiv v id prev Hwf) obj_get_set. Qed.

  (** C5. Updating a parameter that has a slot keeps the key set and the
      enumeration order of the dictionary. *)
Theorem onParamInputChange_keys_known v id prev :
    obj_wf prev -> is_Some (prev.[id]) ->
    own_keys (onParamInputChange v id prev) = own_keys prev.
  Proof.
    intros Hwf Hid. rewrite (onParamInputChange_equiv v id prev Hwf) own_keys_set.
    by rewrite decide_True // elem_of_own_keys.
  Qed.

  (** C6. There is no [UnknownParameterError]: updating an id that has no
      slot creates an entry without [id] and [name], placed by the
      enumeration rule for a fresh key. *)
Theorem onParamInputChange_unknown v id prev :
    obj_wf prev -> prev.[id] = None ->
    (onParamInputChange v id prev).[id]
      = Some {| de_id := None; de_name := None; de_value := Some v |} /\
    own_keys (onParamInputChange v id prev) = own_keys_add id (own_keys prev).
  Proof.
    intros Hwf Hid. rewrite (onParamInputChange_equiv v id prev Hwf) own_keys_set Hid.
    rewrite obj_get_set_eq decide_False //. rewrite elem_of_own_keys Hid. by intros [? ?].
  Qed.

  (** C7. Last write wins: two updates of the same id are equivalent to the
      second alone. *)
Theorem onParamInputChange_last_wins v1 v2 id prev :
    obj_wf prev ->
    onParamInputChange v2 id (onParamInputChange v1 id prev) ≡ₒ onParamInputChange v2 id prev.
  Proof.
    intros Hwf. pose proof (onParamInputChange_wf v1 id prev Hwf) as Hwf1.
    rewrite (onParamInputChange_equiv v2 id _ Hwf1) (onParamInputChange_equiv v2 id prev Hwf).
    rewrite (onParamInputChange_equiv v1 id prev Hwf).
    by rewrite obj_get_set_eq with_value_twice obj_set_set_eq.
  Qed.
End update_theorems.

(** ** [getModel] *)

Section getModel_theorems.
  Implicit Types (ps : list Param) (m : Model) (d : Dict) (k : Z).

Lemma elem_of_getModel d e : e ∈ getModel d <-> exists k, d.[k] = Some e.
  Proof.
    rewrite /getModel /obj_values list_elem_of_omap. split.
    - intros (k & _ & Hk). by exists k.
    - intros [k Hk]. exists k. split; [|done]. apply elem_of_own_keys. by rewrite Hk.
  Qed.

  (** Reading the values along a key list whose every key holds an entry
      carrying that key as its [id]. *)
Lemma omap_get_ids d (ks : list Z) :
    (forall k, k ∈ ks -> exists e, d.[k] = Some e /\ de_id e = Some k) ->
    de_id <$> omap (obj_get d) ks = Some <$> ks.
  Proof.
    induction ks as [|k ks IH]; intros Hks; [done|].
    destruct (Hks k) as (e & He & Hid); [by left|].
    change (omap (obj_get d) (k :: ks))
      with (match d.[k] with Some y => y :: omap (obj_get d) ks | None => omap (obj_get d) ks end).
    rewrite He !fmap_cons Hid IH //. intros k' ?. apply Hks. by right.
  Qed.

Lemma declare_slots_keys ps :
    NoDup (param_ids ps) -> obj_keys (declare_slots ps) = param_ids ps.
  Proof.
    induction ps as [|p ps IH] using rev_ind; [done|].
    rewrite /param_ids fmap_app NoDup_app. intros (Hnd & Hdisj & _).
    rewrite /declare_slots fold_left_app -/(declare_slots ps) /= obj_keys_set IH //.
    rewrite decide_False //. intros Hin. apply (Hdisj _ Hin). by left.
  Qed.

Lemma overlay_values_keys pvs d :
    (forall k, k ∈ value_ids pvs -> k ∈ obj_keys d) ->
    obj_keys (overlay_values pvs d) = obj_keys d.
  Proof.
    induction pvs as [|pv pvs IH] using rev_ind; intros Hin; [done|].
    rewrite /overlay_values fold_left_app -/(overlay_values pvs d) /= obj_keys_set.
    rewrite /value_ids fmap_app in Hin.
    rewrite decide_True IH //; intros; apply Hin; set_solver.
  Qed.

  (** With unique array-index ids and values for declared ids only, the
      initial dictionary enumerates the declared ids in ascending order. *)
Lemma init_dict_own_keys ps m :
    NoDup (param_ids ps) -> Forall is_array_index (param_ids ps) ->
    value_ids (paramValues m) ⊆ param_ids ps ->
    own_keys (init_dict ps m) = sort_keys (param_ids ps).
  Proof.
    intros Hnd Hidx Hsub.
    assert (Hkeys : obj_keys (init_dict ps m) = param_ids ps).
    { rewrite /init_dict overlay_values_keys; [by apply declare_slots_keys|].
      intros k Hk. rewrite declare_slots_keys //. by apply Hsub. }
    rewrite /own_keys Hkeys filter_all // filter_none ?app_nil_r //.
    eapply Forall_impl; [exact Hidx|]. naive_solver.
  Qed.

  (** The slot of a declared id carries that id. *)
Lemma init_dict_slot_id ps m k :
    k ∈ param_ids ps -> exists e, (init_dict ps m).[k] = Some e /\ de_id e = Some k.
  Proof.
    rewrite -last_param_is_Some. intros [p Hp].
    rewrite init_dict_get Hp /=.
    assert (param_id p = k) as <-.
    { apply last_Some_elem_of, list_elem_of_filter in Hp. naive_solver. }
    destruct (last_value _ _); by eexists.
  Qed.

  (** C8. [getModel] returns the entries in ascending id order, not in
      declaration order: with unique ids that are all array indices
      ([0 <= id < 2^32 - 1]) and initial values for declared ids only, the ids
      of the returned entries are the declared ids sorted. *)
Theorem getModel_init_order ps m :
    NoDup (param_ids ps) -> Forall is_array_index (param_ids ps) ->
    value_ids (paramValues m) ⊆ param_ids ps ->
    de_id <$> getModel (init_dict ps m) = Some <$> sort_keys (param_ids ps).
  Proof.
    intros Hnd Hidx Hsub. rewrite /getModel /obj_values init_dict_own_keys //.
    apply omap_get_ids. intros k Hk. apply init_dict_slot_id. by rewrite sort_keys_perm in Hk.
  Qed.

  (** C9. Slots that never received a value are part of [getModel]: a
      declared parameter without initial value contributes its entry with
      [value] undefined. *)
Theorem getModel_init_empty_slot ps m k p :
    last_param ps k = Some p -> k ∉ value_ids (paramValues m) ->
    declared_slot p ∈ getModel (init_dict ps m).
  Proof.
    intros Hp Hk. apply elem_of_getModel. exists k.
    rewrite init_dict_get Hp. destruct (last_value _ k) eqn:Hv; [|done].
    exfalso. apply Hk, last_value_is_Some. by rewrite Hv.
  Qed.
End getModel_theorems.

(** ** Witnesses on concrete inputs *)

(** The scenario of the specification: parameter 2 has no initial value. *)
Definition spec_model : Model := mkModel [mkParamValue 1 (VString "повседневное")].

(** Declarations listed against the order of their ids. *)
Definition unsorted_params : list Param :=
  [mkParam 7 "Цвет" "string"; mkParam 3 "Размер" "string"].

Definition unsorted_model : Model := mkModel [mkParamValue 3 (VString "M")].

Lemma init_dict_keys_declared_witness :
  value_ids (paramValues App_model) ⊆ param_ids App_params /\
  dict_keys (init_dict App_params App_model) = list_to_set (param_ids App_params).
Proof.
  assert (H : value_ids (paramValues App_model) ⊆ param_ids App_params) by decide_by_eval.
  split; [exact H | exact (init_dict_keys_declared _ _ H)].
Defined.

Lemma init_dict_roundtrip_witness :
  last_param App_params 1 = Some (mkParam 1 "Назначение" "string") /\
  last_value (paramValues App_model) 1 = Some (VString "повседневное") /\
  (init_dict App_params App_model).[1] =
    Some {| de_id := Some 1; de_name := Some "Назначение";
            de_value := Some (VString "повседневное") |}.
Proof.
  assert (Hp : last_param App_params 1 = Some (mkParam 1 "Назначение" "string"))
    by (vm_compute; reflexivity).
  assert (Hv : last_value (paramValues App_model) 1 = Some (VString "повседневное"))
    by (vm_compute; reflexivity).
  split; [exact Hp|]. split; [exact Hv|]. exact (init_dict_roundtrip _ _ _ _ _ Hp Hv).
Defined.

Lemma onParamInputChange_get_witness :
  obj_wf (init_dict App_params spec_model) /\
  (onParamInputChange (VString "макси") 2 (init_dict App_params spec_model)).[2] =
    if decide ((2:Z) = 2)
    then Some (with_value (init_dict App_params spec_model).[2] (Some (VString "макси")))
    else (init_dict App_params spec_model).[2].
Proof.
  assert (H : obj_wf (init_dict App_params spec_model)) by decide_by_eval.
  split; [exact H | exact (onParamInputChange_get _ _ _ _ H)].
Defined.

Lemma onParamInputChange_keys_known_witness :
  obj_wf (init_dict App_params spec_model) /\
  is_Some ((init_dict App_params spec_model).[2]) /\
  own_keys (onParamInputChange (VString "макси") 2 (init_dict App_params spec_model))
  = own_keys (init_dict App_params spec_model).
Proof.
  assert (H : obj_wf (init_dict App_params spec_model)) by decide_by_eval.
  assert (Hs : is_Some ((init_dict App_params spec_model).[2])) by (vm_compute; by eexists).
  split; [exact H|]. split; [exact Hs | exact (onParamInputChange_keys_known _ _ _ H Hs)].
Defined.

Lemma onParamInputChange_unknown_witness :
  obj_wf (init_dict App_params spec_model) /\
  (init_dict App_params spec_model).[5] = None /\
  (onParamInputChange (VString "x") 5 (init_dict App_params spec_model)).[5]
    = Some {| de_id := None; de_name := None; de_value := Some (VString "x") |} /\
  own_keys (onParamInputChange (VString "x") 5 (init_dict App_params spec_model))
    = own_keys_add 5 (own_keys (init_dict App_params spec_model)).
Proof.
  assert (H : obj_wf (init_dict App_params spec_model)) by decide_by_eval.
  assert (Hn : (init_dict App_params spec_model).[5] = None) by (vm_compute; reflexivity).
  split; [exact H|]. split; [exact Hn | exact (onParamInputChange_unknown _ _ _ H Hn)].
Defined.

Lemma onParamInputChange_last_wins_witness :
  obj_wf (init_dict App_params spec_model) /\
  onParamInputChange (VString "b") 2
    (onParamInputChange (VString "a") 2 (init_dict App_params spec_model))
  ≡ₒ onParamInputChange (VString "b") 2 (init_dict App_params spec_model).
Proof.
  assert (H : obj_wf (init_dict App_params spec_model)) by decide_by_eval.
  split; [exact H | exact (onParamInputChange_last_wins _ _ _ _ H)].
Defined.

Lemma getModel_init_order_witness :
  NoDup (param_ids unsorted_params) /\ Forall is_array_index (param_ids unsorted_params) /\
  value_ids (paramValues unsorted_model) ⊆ param_ids unsorted_params /\
  de_id <$> getModel (init_dict unsorted_params unsorted_model)
  = Some <$> sort_keys (param_ids unsorted_params).
Proof.
  assert (H1 : NoDup (param_ids unsorted_params)) by decide_by_eval.
  assert (H2 : Forall is_array_index (param_ids unsorted_params)) by decide_by_eval.
  assert (H3 : value_ids (paramValues unsorted_model) ⊆ param_ids unsorted_params)
    by decide_by_eval.
  split; [exact H1|]. split; [exact H2|]. split; [exact H3|].
  exact (getModel_init_order _ _ H1 H2 H3).
Defined.

Lemma getModel_init_empty_slot_witness :
  last_param App_params 2 = Some (mkParam 2 "Длина" "string") /\
  (2 ∉ value_ids (paramValues spec_model)) /\
  declared_slot (mkParam 2 "Длина" "string") ∈ getModel (init_dict App_params spec_model).
Proof.
  assert (Hp : last_param App_params 2 = Some (mkParam 2 "Длина" "string"))
    by (vm_compute; reflexivity).
  assert (Hk : 2 ∉ value_ids (paramValues spec_model)) by decide_by_eval.
  split; [exact Hp|]. split; [exact Hk | exact (getModel_init_empty_slot _ _ _ _ Hp Hk)].
Defined.
