(* ===== verification/Render.v ===== *)
(** * The dispatcher [renderParams] and the control [ParamInput]

    [renderParams] (App.tsx lines 83-100) maps every declared parameter to a
    [ParamInput] element when [param.type === 'string'] and the slot's value
    is a string, and to [null] otherwise.  Reading [dict[param.id].value]
    throws a [TypeError] when the dictionary has no entry for [param.id].
    [ParamInput] (lines 17-39) renders a label and a text input whose
    [onChange] reports [e.target.value] together with its [id] to the
    callback it was given; the editor's callback (line 93) ignores that [id]
    and calls [onParamInputChange] with the [param.id] it closed over.

    Elements are kept as data: the React [key], the label text, the input's
    displayed value and the change handler, which returns the state updater
    the change queues.  The extension point of line 97 ("Handle other types
    here if needed") is the parameter [other] of [render_param_with]; the
    code is the instance with [other] returning [null]. *)

From S2P Require Import Prelude JsObject Types Editor.

(** ** Elements *)

(** The props of [ParamInput] (lines 17-27); [onChange] returns the updater
    the callback queues. *)
Record ParamInputProps := mkParamInputProps {
  pi_id : Z;
  pi_name : string;
  pi_value : option string;
  pi_onChange : string -> Z -> (Dict -> Dict)
}.

(** A rendered text control: React [key], label, displayed value, and the
    updater queued when the input's text becomes the given string. *)
Record Element := mkElement {
  el_key : Z;
  el_label : string;
  el_value : option string;
  el_onChange : string -> (Dict -> Dict)
}.

(** [ParamInput] (lines 17-39) with the [key] React receives beside it. *)
Definition ParamInput (key : Z) (props : ParamInputProps) : Element :=
  {| el_key := key;
     el_label := pi_name props;
     el_value := pi_value props;
     el_onChange := fun target_value => pi_onChange props target_value (pi_id props) |}.

(** The callback of line 93: [(value) => onParamInputChange(value as T, param.id)]. *)
Definition param_callback (p : Param) : string -> Z -> (Dict -> Dict) :=
  fun v _ => onParamInputChange (VString v) (param_id p).

(** ** The dispatcher *)

(** [TypeError]: reading [.value] of [undefined] for the given id. *)
Inductive RenderError := TypeError_undefined_slot (id : Z).

(** One iteration of [params.map] (lines 84-99), with the branch for other
    types of line 97 as a parameter. *)
Definition render_param_with (other : Param -> option Val -> option Element)
    (dict : Dict) (p : Param) : RenderError + option Element :=
  match dict.[param_id p] with
  | None => inl (TypeError_undefined_slot (param_id p))
  | Some entry =>
      let v := de_value entry in
      match decide (param_type p = "string"), decide (typeof v = "string"), as_string v with
      | left _, left _, Some s =>
          inr (Some (ParamInput (param_id p)
                       {| pi_id := param_id p; pi_name := param_name p;
                          pi_value := Some s; pi_onChange := param_callback p |}))
      | _, _, _ => inr (other p v)
      end
  end.

(** The code: other types render [null] (line 98). *)
Definition render_param : Dict -> Param -> RenderError + option Element :=
  render_param_with (fun _ _ => None).

(** [params.map(...)] (lines 84-99): the first [TypeError] aborts the render. *)
Fixpoint renderParams_with (other : Param -> option Val -> option Element)
    (ps : list Param) (dict : Dict) : RenderError + list (option Element) :=
  match ps with
  | [] => inr []
  | p :: ps' =>
      match render_param_with other dict p with
      | inl err => inl err
      | inr el =>
          match renderParams_with other ps' dict with
          | inl err => inl err
          | inr els => inr (el :: els)
          end
      end
  end.

Definition renderParams : list Param -> Dict -> RenderError + list (option Element) :=
  renderParams_with (fun _ _ => None).

(** ** Lemmas *)

Section render_lemmas.
  Implicit Types (dict : Dict) (p : Param) (ps : list Param).

Lemma as_string_typeof v : typeof v = "string" <-> is_Some (as_string v).
  Proof. destruct v as [[]|]; simpl; split; intros H; by [|destruct H|eexists]. Qed.

  (** The dispatcher reads the dictionary through [[Get]] only. *)
#[export] Instance render_param_with_proper other :
    Proper (obj_equiv ==> eq ==> eq) (render_param_with other).
  Proof. intros d1 d2 Hd p ? <-. by rewrite /render_param_with Hd. Qed.

#[export] Instance renderParams_with_proper other :
    Proper (eq ==> obj_equiv ==> eq) (renderParams_with other).
  Proof.
    intros ps ? <- d1 d2 Hd. induction ps as [|p ps IH]; [done|].
    by rewrite /= IH Hd.
  Qed.

  (** The three outcomes of one iteration. *)
Lemma render_param_with_cases other dict p :
    (dict.[param_id p] = None /\
       render_param_with other dict p = inl (TypeError_undefined_slot (param_id p))) \/
    (exists e s, dict.[param_id p] = Some e /\ de_value e = Some (VString s) /\
       param_type p = "string" /\
       render_param_with other dict p =
         inr (Some (ParamInput (param_id p)
                      {| pi_id := param_id p; pi_name := param_name p;
                         pi_value := Some s; pi_onChange := param_callback p |}))) \/
    (exists e, dict.[param_id p] = Some e /\
       (param_type p <> "string" \/ as_string (de_value e) = None) /\
       render_param_with other dict p = inr (other p (de_value e))).
  Proof.
    rewrite /render_param_with. destruct (dict.[param_id p]) as [e|]; [|by left].
    right. destruct (decide (param_type p = "string")) as [Ht|Ht];
      [|right; exists e; naive_solver].
    destruct (de_value e) as [[s| |]|] eqn:Hv; simpl;
      [left; exists e, s; naive_solver | right; exists e; rewrite Hv; naive_solver ..].
  Qed.

(** [renderParams] succeeds with [els] exactly when each parameter renders
    to the element at the same position. *)
Lemma renderParams_with_Forall2 other ps dict els :
  renderParams_with other ps dict = inr els <->
  Forall2 (fun p x => render_param_with other dict p = inr x) ps els.
Proof.
  revert els. induction ps as [|p ps IH]; intros els; simpl.
  - split; [intros; simplify_eq; constructor | by inversion 1].
  - destruct (render_param_with other dict p) as [err|x] eqn:Hp.
    + split; [done|]. inversion 1; congruence.
    + destruct (renderParams_with other ps dict) as [err|xs] eqn:Hps.
      * split; [done|]. inversion 1 as [|? ? ? ? Hx Hxs]; simplify_eq.
        apply IH in Hxs. congruence.
      * split.
        -- intros; simplify_eq. constructor; [done|]. by apply IH.
        -- inversion 1 as [|? ? ? ? Hx Hxs]; simplify_eq. apply IH in Hxs. congruence.
Qed.
(** A rendered control sits on a string slot, and its handler queues the
    update of its parameter's id. *)
Lemma render_param_some dict p el :
  render_param dict p = inr (Some el) ->
  param_type p = "string" /\
  (exists e s, dict.[param_id p] = Some e /\ de_value e = Some (VString s)) /\
  forall t, el_onChange el t = onParamInputChange (VString t) (param_id p).
Proof.
  destruct (render_param_with_cases (fun _ _ => None) dict p)
    as [[_ Hr] | [(e & s & He & Hv & Ht & Hr) | (e & _ & _ & Hr)]];
    rewrite /render_param Hr; intros Hel; simplify_eq.
  split_and!; [done | by exists e, s | done].
Qed.

(** The dispatcher returns a result when every declared parameter has a slot. *)
Lemma renderParams_ok other ps dict :
  (forall p, p ∈ ps -> is_Some (dict.[param_id p])) ->
  exists els, renderParams_with other ps dict = inr els.
Proof.
  induction ps as [|p ps IH]; intros Hdef; [by exists []|].
  destruct IH as (els & Hels); [intros; apply Hdef; by right|].
  destruct (render_param_with_cases other dict p)
    as [[Hn _] | [(? & ? & _ & _ & _ & Hr) | (? & _ & _ & Hr)]].
  - destruct (Hdef p) as [? Hs]; [by left | congruence].
  - eexists. by rewrite /= Hr Hels.
  - eexists. by rewrite /= Hr Hels.
Qed.
End render_lemmas.

Section render_theorems.
  Implicit Types (dict : Dict) (p : Param) (ps : list Param).

  (** C10. A control is rendered only for a ['string'] parameter whose slot
      holds a string; it shows the parameter's name and that string, and a
      change of its text to [t] queues [onParamInputChange(t, param.id)]
      whatever id [ParamInput] reports with it. *)
Theorem render_param_control dict p el :
    render_param dict p = inr (Some el) ->
    param_type p = "string" /\ el_key el = param_id p /\ el_label el = param_name p /\
    (exists e s, dict.[param_id p] = Some e /\ de_value e = Some (VString s) /\
                 el_value el = Some s) /\
    forall t, el_onChange el t = onParamInputChange (VString t) (param_id p).
  Proof.
    destruct (render_param_with_cases (fun _ _ => None) dict p)
      as [[_ Hr] | [(e & s & He & Hv & Ht & Hr) | (e & _ & _ & Hr)]];
      rewrite /render_param Hr; intros Hel; simplify_eq.
    split_and!; [done..| by exists e, s | done].
  Qed.

  (** C11. A parameter whose slot holds no string gets no control, whatever
      its declared type. *)
Theorem render_param_no_string dict p e :
    dict.[param_id p] = Some e -> as_string (de_value e) = None ->
    render_param dict p = inr None.
  Proof.
    intros He Hs.
    destruct (render_param_with_cases (fun _ _ => None) dict p)
      as [[He' _] | [(e' & s & He' & Hv & _) | (? & _ & _ & Hr)]]; [congruence| |done].
    rewrite He in He'. simplify_eq. by rewrite Hv in Hs.
  Qed.

  (** C12. The dispatcher never throws when every declared parameter has a
      slot, and then yields one element or [null] per parameter. *)
Theorem renderParams_total other ps dict :
    (forall p, p ∈ ps -> is_Some (dict.[param_id p])) ->
    exists els, renderParams_with other ps dict = inr els /\ length els = length ps.
  Proof.
    intros Hdef. destruct (renderParams_ok other ps dict Hdef) as [els Hels].
    exists els. split; [done|]. symmetry.
    by eapply Forall2_length, renderParams_with_Forall2.
  Qed.

  (** C13. A declared parameter without a slot makes the whole render throw
      a [TypeError]. *)
Theorem renderParams_type_error other ps dict p :
    p ∈ ps -> dict.[param_id p] = None ->
    exists id, renderParams_with other ps dict = inl (TypeError_undefined_slot id).
  Proof.
    intros Hp Hn. induction ps as [|q ps IH]; [by apply elem_of_nil in Hp|]. simpl.
    destruct (render_param_with_cases other dict q)
      as [[_ Hr] | [(? & ? & Hq & _ & _ & Hr) | (? & Hq & _ & Hr)]]; rewrite Hr; [by eexists|..];
      (apply elem_of_cons in Hp as [->|Hp]; [congruence|]);
      destruct (IH Hp) as [id ->]; by eexists.
  Qed.

End render_theorems.

(** ** Witnesses on concrete inputs *)

Definition App_param1 : Param := mkParam 1 "Назначение" "string".
Definition App_param2 : Param := mkParam 2 "Длина" "string".

(** The control [renderParams] builds for parameter 1 of the demonstration. *)
Definition App_control1 : Element :=
  ParamInput 1 {| pi_id := 1; pi_name := "Назначение";
                  pi_value := Some "повседневное"; pi_onChange := param_callback App_param1 |}.

(** A branch for other types that renders a read-only placeholder. *)
Definition placeholder_other (p : Param) (v : option Val) : option Element :=
  Some (ParamInput (param_id p) {| pi_id := param_id p; pi_name := param_name p;
                                   pi_value := None; pi_onChange := fun _ _ d => d |}).

Lemma render_param_control_witness :
  render_param (init_dict App_params App_model) App_param1 = inr (Some App_control1) /\
  param_type App_param1 = "string" /\ el_key App_control1 = param_id App_param1 /\
  el_label App_control1 = param_name App_param1 /\
  (exists e s, (init_dict App_params App_model).[param_id App_param1] = Some e /\
               de_value e = Some (VString s) /\ el_value App_control1 = Some s) /\
  forall t, el_onChange App_control1 t = onParamInputChange (VString t) (param_id App_param1).
Proof.
  assert (H : render_param (init_dict App_params App_model) App_param1 = inr (Some App_control1))
    by reflexivity.
  split; [exact H | exact (render_param_control _ _ _ H)].
Defined.

Lemma render_param_no_string_witness :
  (init_dict App_params spec_model).[param_id App_param2] = Some (declared_slot App_param2) /\
  as_string (de_value (declared_slot App_param2)) = None /\
  render_param (init_dict App_params spec_model) App_param2 = inr None.
Proof.
  assert (He : (init_dict App_params spec_model).[param_id App_param2]
               = Some (declared_slot App_param2)) by reflexivity.
  assert (Hs : as_string (de_value (declared_slot App_param2)) = None) by reflexivity.
  split; [exact He|]. split; [exact Hs | exact (render_param_no_string _ _ _ He Hs)].
Defined.

Lemma renderParams_total_witness :
  (forall p, p ∈ App_params -> is_Some ((init_dict App_params spec_model).[param_id p])) /\
  exists els, renderParams_with placeholder_other App_params (init_dict App_params spec_model)
                = inr els /\ length els = length App_params.
Proof.
  assert (H : forall p, p ∈ App_params ->
              is_Some ((init_dict App_params spec_model).[param_id p])).
  { apply Forall_forall. decide_by_eval. }
  split; [exact H | exact (renderParams_total _ _ _ H)].
Defined.

Lemma renderParams_type_error_witness :
  App_param2 ∈ App_params /\ (declare_slots [App_param1]).[param_id App_param2] = None /\
  exists id, renderParams App_params (declare_slots [App_param1])
             = inl (TypeError_undefined_slot id).
Proof.
  assert (Hp : App_param2 ∈ App_params) by (right; left).
  assert (Hn : (declare_slots [App_param1]).[param_id App_param2] = None)
    by reflexivity.
  split; [exact Hp|]. split; [exact Hn | exact (renderParams_type_error _ _ _ _ Hp Hn)].
Defined.

