(* ===== verification/Session.v ===== *)
(** * The React hook runtime of [ParamEditor]

    A mounted [ParamEditor] (App.tsx lines 41-114) keeps its dictionary in
    [useState].  A change event in a rendered [ParamInput] calls
    [setValuesByParamIdDict] with a functional updater (lines 74-80), which
    React queues; at the next render React applies the queued updaters in
    order to the committed state, and the component runs again: [useState]
    returns the new dictionary and [renderParams] builds the new controls
    (lines 83-104).  The "get model" button (lines 105-111) logs [getModel()]
    of the dictionary of the render that created its handler.

    A session is the committed dictionary, the queue of pending updaters, the
    controls of the last render and the log.  [step] lets changes, renders and
    clicks interleave freely.  React itself flushes the queue after every
    discrete event, so its schedules are among the ones [step] allows, and
    what holds in every reachable session holds in React's.  The theorems are
    proved by induction on the reflexive-transitive closure of [step], with
    the invariant [sess_inv]. *)

From S2P Require Import Prelude JsObject Types Editor Render.

(** ** Sessions *)

Record Session := mkSession {
  s_dict : Dict;                    (** committed [valuesByParamIdDict] *)
  s_queue : list (Dict -> Dict);    (** updaters queued since the last render *)
  s_view : list (option Element);   (** the output of the last [renderParams] *)
  s_log : list (list DictEntry)     (** what the button has logged *)
}.

(** React's processing of the update queue: each updater receives the result
    of the previous one ([setValuesByParamIdDict((prev) => ...)], line 74). *)
Definition apply_updates (q : list (Dict -> Dict)) (d : Dict) : Dict :=
  fold_left (fun d u => u d) q d.

Section Runtime.
  Context (props : Props).

(** The first render of [<ParamEditor {...props} />]: the [useState]
    initialiser runs once, then [renderParams]. *)
Definition mount : RenderError + Session :=
  let d := init_dict (params props) (model props) in
  match renderParams (params props) d with
  | inl err => inl err
  | inr v => inr (mkSession d [] v [])
  end.

(** The text of the [i]-th rendered control becomes [t]: its [onChange]
    (line 35) queues the updater; there is no control at [i] when the last
    render produced [null] there. *)
Definition change_event (s : Session) (i : nat) (t : string) : option Session :=
  match s_view s !! i with
  | Some (Some el) =>
      Some (mkSession (s_dict s) (s_queue s ++ [el_onChange el t]) (s_view s) (s_log s))
  | _ => None
  end.

(** A re-render: [useState] returns the queued updaters applied to the
    committed dictionary (line 45), and [renderParams] runs on it. *)
Definition rerender (s : Session) : RenderError + Session :=
  let d := apply_updates (s_queue s) (s_dict s) in
  match renderParams (params props) d with
  | inl err => inl err
  | inr v => inr (mkSession d [] v (s_log s))
  end.

(** A click on "get model" (line 107): [console.log(getModel())] with the
    dictionary of the last render. *)
Definition click_get_model (s : Session) : Session :=
  mkSession (s_dict s) (s_queue s) (s_view s) (s_log s ++ [getModel (s_dict s)]).

Inductive step : Session -> Session -> Prop :=
| step_change s i t s' : change_event s i t = Some s' -> step s s'
| step_render s s' : rerender s = inr s' -> step s s'
| step_click s : step s (click_get_model s).

Definition reachable (s : Session) : Prop :=
  exists s0, mount = inr s0 /\ rtc step s0 s.

End Runtime.

(** Whether the slot of [k] holds a string, and which. *)
Definition slot_string (d : Dict) (k : Z) : option string :=
  d.[k] ≫= fun e => as_string (de_value e).

(** The fields of an entry that the updates never write: [id] and [name]. *)
Definition entry_key (e : DictEntry) : option Z * option string := (de_id e, de_name e).

(** ** Updates that target string slots *)

Section update_lemmas.
  Implicit Types (d : Dict) (k id : Z) (t : string).

Lemma update_slot_string t id d k :
  obj_wf d ->
  slot_string (onParamInputChange (VString t) id d) k =
    if decide (k = id) then Some t else slot_string d k.
Proof.
  intros Hwf. rewrite /slot_string (onParamInputChange_equiv _ _ _ Hwf) obj_get_set.
  case_decide; [by destruct (d.[id])|done].
Qed.

Lemma slot_string_is_Some d k : is_Some (slot_string d k) -> is_Some (d.[k]).
Proof. rewrite /slot_string. destruct (d.[k]); [done|by intros [? ?]]. Qed.

(** A queued updater of the session: [onParamInputChange] with a string, for
    an id whose slot holds a string. *)
Definition string_update (d : Dict) (u : Dict -> Dict) : Prop :=
  exists t id, is_Some (slot_string d id) /\ u = onParamInputChange (VString t) id.

(** What applying such a queue preserves. *)
Definition preserves (d d' : Dict) : Prop :=
  obj_wf d' /\
  (forall k, is_Some (d'.[k]) <-> is_Some (d.[k])) /\
  (forall k, slot_string d k = None -> d'.[k] = d.[k]) /\
  (forall k, is_Some (slot_string d k) -> is_Some (slot_string d' k)) /\
  own_keys d' = own_keys d /\
  (forall k, entry_key <$> d'.[k] = entry_key <$> d.[k]).

Lemma preserves_refl d : obj_wf d -> preserves d d.
Proof. intros. by split_and!. Qed.

Lemma preserves_trans d1 d2 d3 : preserves d1 d2 -> preserves d2 d3 -> preserves d1 d3.
Proof.
  intros (_ & K1 & F1 & S1 & O1 & E1) (W2 & K2 & F2 & S2 & O2 & E2).
  split_and!; [done| | | | |].
  - intros k. by rewrite K2 K1.
  - intros k Hk. rewrite F2 ?F1 //. rewrite /slot_string F1 //.
  - intros k Hk. by apply S2, S1.
  - by rewrite O2 O1.
  - intros k. by rewrite E2 E1.
Qed.

Lemma preserves_update d u : obj_wf d -> string_update d u -> preserves d (u d).
Proof.
  intros Hwf (t & id & Hid & ->). split_and!.
  - by apply onParamInputChange_wf.
  - intros k. rewrite (onParamInputChange_equiv _ _ _ Hwf) obj_get_set. case_decide; [subst|done].
    split; [intros _; by apply slot_string_is_Some|by eexists].
  - intros k Hk. rewrite (onParamInputChange_equiv _ _ _ Hwf) obj_get_set. case_decide; [subst|done].
    rewrite Hk in Hid. by destruct Hid.
  - intros k Hk. rewrite update_slot_string //. by case_decide.
  - rewrite (onParamInputChange_equiv _ _ _ Hwf) own_keys_set decide_True //.
    apply elem_of_own_keys. by apply slot_string_is_Some.
  - intros k. rewrite (onParamInputChange_equiv _ _ _ Hwf) obj_get_set. case_decide; [subst|done].
    by destruct (slot_string_is_Some _ _ Hid) as [e ->].
Qed.

(** [getModel] of two dictionaries with the same enumeration order and the
    same ids and names at every key lists the same ids and names. *)
Lemma getModel_entry_keys d d' :
  own_keys d = own_keys d' -> (forall k, entry_key <$> d.[k] = entry_key <$> d'.[k]) ->
  entry_key <$> getModel d = entry_key <$> getModel d'.
Proof.
  rewrite /getModel /obj_values. intros -> He. induction (own_keys d') as [|k ks IH]; [done|].
  pose proof (He k) as Hk. simpl.
  destruct (d.[k]) as [x|], (d'.[k]) as [y|]; try discriminate Hk; [|exact IH].
  injection Hk as Hid Hname. rewrite !fmap_cons {1 3}/entry_key Hid Hname. f_equal. exact IH.
Qed.

Lemma apply_updates_app q1 q2 d :
  apply_updates (q1 ++ q2) d = apply_updates q2 (apply_updates q1 d).
Proof. apply fold_left_app. Qed.

Lemma apply_updates_snoc q u d :
  apply_updates (q ++ [u]) d = u (apply_updates q d).
Proof. by rewrite apply_updates_app. Qed.

Lemma apply_updates_preserves q d :
  obj_wf d -> Forall (string_update d) q -> preserves d (apply_updates q d).
Proof.
  revert d. induction q as [|u q IH]; intros d Hwf Hq; [by apply preserves_refl|].
  inversion Hq as [|? ? Hu Hq']; subst. simpl.
  pose proof (preserves_update d u Hwf Hu) as Hp.
  apply (preserves_trans _ (u d)); [done|]. apply IH; [apply Hp|].
  eapply Forall_impl; [exact Hq'|]. intros u' (t & id & Hs & ->).
  exists t, id. split; [|done]. by apply Hp.
Qed.
End update_lemmas.

(** ** The invariant of reachable sessions *)

Section invariant.
  Context (props : Props).
  Local Abbreviation ps := (params props).
  Local Abbreviation d0 := (init_dict (params props) (model props)).

(** The dictionary is well formed, has the initial key set, still holds the
    initial entry at every key whose initial slot held no string, every
    pending updater writes a string into a string slot, the controls are
    those of the committed dictionary, the keys are enumerated in the initial
    order with the initial ids and names, and every logged model lists the
    ids and names of the initial [getModel]. *)
Record sess_inv (s : Session) : Prop := {
  inv_wf : obj_wf (s_dict s);
  inv_keys : forall k, is_Some ((s_dict s).[k]) <-> is_Some (d0.[k]);
  inv_frozen : forall k, slot_string d0 k = None -> (s_dict s).[k] = d0.[k];
  inv_queue : Forall (string_update (s_dict s)) (s_queue s);
  inv_view : renderParams ps (s_dict s) = inr (s_view s);
  inv_order : own_keys (s_dict s) = own_keys d0;
  inv_entries : forall k, entry_key <$> (s_dict s).[k] = entry_key <$> d0.[k];
  inv_log : Forall (fun m => entry_key <$> m = entry_key <$> getModel d0) (s_log s)
}.

Lemma view_control s i el :
  sess_inv s -> s_view s !! i = Some (Some el) ->
  exists p, ps !! i = Some p /\ render_param (s_dict s) p = inr (Some el).
Proof.
  intros Hinv Hi. pose proof (inv_view _ Hinv) as Hv.
  apply renderParams_with_Forall2 in Hv.
  destruct (Forall2_lookup_r _ _ _ _ _ Hv Hi) as (p & Hp & Hr). by exists p.
Qed.

Lemma sess_inv_mount s0 : mount props = inr s0 -> sess_inv s0.
Proof.
  rewrite /mount. destruct (renderParams _ _) as [|v] eqn:Hr; intros; simplify_eq.
  split; cbn [s_dict s_queue s_view s_log]; [apply init_dict_wf|done..|constructor|done|done|done|constructor].
Qed.

Lemma sess_inv_change s i t s' : sess_inv s -> change_event s i t = Some s' -> sess_inv s'.
Proof.
  intros Hinv. rewrite /change_event.
  destruct (s_view s !! i) as [[el|]|] eqn:Hi; intros; simplify_eq.
  destruct (view_control s i el Hinv Hi) as (p & _ & Hr).
  destruct (render_param_some _ _ _ Hr) as (_ & (e & str & He & Hv) & Hcb).
  destruct Hinv as [Hwf Hk Hf Hq Hview Ho Hen Hl]. split; cbn [s_dict s_queue s_view s_log]; try done.
  apply Forall_app. split; [done|]. constructor; [|constructor].
  exists t, (param_id p). split; [|apply Hcb]. rewrite /slot_string He /= Hv. by eexists.
Qed.

Lemma sess_inv_rerender s s' : sess_inv s -> rerender props s = inr s' -> sess_inv s'.
Proof.
  intros [Hwf Hk Hf Hq Hview Ho Hen Hl]. rewrite /rerender.
  destruct (renderParams ps (apply_updates (s_queue s) (s_dict s))) as [|v] eqn:Hr;
    intros; simplify_eq.
  destruct (apply_updates_preserves _ _ Hwf Hq) as (Hwf' & Hk' & Hf' & _ & Ho' & He').
  split; cbn [s_dict s_queue s_view s_log]; [done| | |constructor|done|by rewrite Ho' Ho| |done].
  - intros k. by rewrite Hk' Hk.
  - intros k Hk0. rewrite Hf'; [by apply Hf|]. rewrite /slot_string Hf //.
  - intros k. by rewrite He' Hen.
Qed.

Lemma sess_inv_step s s' : sess_inv s -> step props s s' -> sess_inv s'.
Proof.
  intros Hinv Hs. destruct Hs as [? i t ? Hc | ? ? Hr | ?].
  - by eapply sess_inv_change.
  - by eapply sess_inv_rerender.
  - destruct Hinv as [Hwf Hk Hf Hq Hview Ho Hen Hl]. split; cbn [s_dict s_log]; try done.
    apply Forall_app. split; [done|]. constructor; [|constructor].
    by apply getModel_entry_keys.
Qed.

Lemma sess_inv_reachable s : reachable props s -> sess_inv s.
Proof.
  intros (s0 & Hm & Hrtc). apply sess_inv_mount in Hm.
  induction Hrtc as [|x y z Hxy _ IH]; [done|]. apply IH. by eapply sess_inv_step.
Qed.
End invariant.

(** ** Reachable sessions *)

Section session_lemmas.
  Context (props : Props).
  Local Abbreviation ps := (params props).
  Local Abbreviation d0 := (init_dict (params props) (model props)).

Lemma reachable_step s s' : reachable props s -> step props s s' -> reachable props s'.
Proof. intros (s0 & Hm & Hr) Hs. exists s0. split; [done|]. by eapply rtc_r. Qed.

Lemma declared_has_slot s p : sess_inv props s -> p ∈ ps -> is_Some ((s_dict s).[param_id p]).
Proof.
  intros Hinv Hp. apply (inv_keys _ _ Hinv), init_dict_is_Some. left.
  apply list_elem_of_fmap. by exists p.
Qed.

Lemma rerender_ok s : sess_inv props s -> exists s', rerender props s = inr s'.
Proof.
  intros Hinv.
  destruct (apply_updates_preserves _ _ (inv_wf _ _ Hinv) (inv_queue _ _ Hinv))
    as (_ & Hk & _).
  destruct (renderParams_ok (fun _ _ => None) ps (apply_updates (s_queue s) (s_dict s)))
    as (v & Hv).
  { intros p Hp. apply Hk. by apply declared_has_slot. }
  rewrite /rerender /renderParams Hv. by eexists.
Qed.

(** A control survives an update that keeps string slots string, with the
    same change handler. *)
Lemma control_persists d d' p el :
  render_param d p = inr (Some el) -> preserves d d' ->
  exists el', render_param d' p = inr (Some el') /\ forall t, el_onChange el' t = el_onChange el t.
Proof.
  intros Hr (_ & _ & _ & Hs & _).
  destruct (render_param_some _ _ _ Hr) as (Ht & (e & str & He & Hv) & Hcb).
  destruct (Hs (param_id p)) as [str' Hs']; [rewrite /slot_string He /= Hv; by eexists|].
  rewrite /slot_string in Hs'. destruct (d'.[param_id p]) as [e'|] eqn:He'; [|done].
  simpl in Hs'. destruct (de_value e') as [[]|] eqn:Hv'; simplify_eq.
  destruct (render_param_with_cases (fun _ _ => None) d' p)
    as [[? _] | [(e'' & s'' & He'' & Hv'' & _ & Hr') | (e'' & He'' & Hc & _)]]; [congruence| |].
  - eexists. split; [exact Hr'|]. intros t. destruct (render_param_some _ _ _ Hr') as (_ & _ & Hcb').
    by rewrite Hcb' Hcb.
  - rewrite He' in He''. simplify_eq. rewrite Hv' in Hc. naive_solver.
Qed.
End session_lemmas.

(** ** Theorems on the running editor *)

Section session_theorems.
  Context (props : Props).
  Local Abbreviation ps := (params props).
  Local Abbreviation d0 := (init_dict (params props) (model props)).

(** C15. In every reachable session the dictionary has exactly the keys it
    had after initialisation: edits made through the controls never add or
    remove a key. *)
Theorem session_keys s :
  reachable props s -> dict_keys (s_dict s) = dict_keys d0.
Proof.
  intros Hs. apply set_eq. intros k. rewrite !elem_of_dict_keys.
  apply (inv_keys _ _ (sess_inv_reachable _ _ Hs)).
Qed.

(** C16. When the initial model names declared parameters only, the key set
    of every reachable session is exactly the set of declared ids. *)
Theorem session_keys_declared s :
  value_ids (paramValues (model props)) ⊆ param_ids ps -> reachable props s ->
  dict_keys (s_dict s) = list_to_set (param_ids ps).
Proof.
  intros Hsub Hs. apply set_eq. intros k.
  rewrite elem_of_dict_keys (inv_keys _ _ (sess_inv_reachable _ _ Hs)) init_dict_is_Some.
  rewrite elem_of_list_to_set. set_solver.
Qed.

(** C17. The editor never crashes: the first render succeeds, and from every
    reachable session the next render succeeds. *)
Theorem session_never_crashes :
  (exists s0, mount props = inr s0) /\
  forall s, reachable props s -> exists s', rerender props s = inr s'.
Proof.
  split.
  - destruct (renderParams_ok (fun _ _ => None) ps d0) as (v & Hv).
    { intros p Hp. apply init_dict_is_Some. left. apply list_elem_of_fmap. by exists p. }
    rewrite /mount /renderParams Hv. by eexists.
  - intros s Hs. apply rerender_ok, sess_inv_reachable, Hs.
Qed.

(** C18. A declared parameter whose initial slot holds no string (no initial
    value, or a non-string one) never gets a control and its slot never
    changes, in any reachable session: it cannot be edited at all. *)
Theorem session_no_control_forever s p :
  reachable props s -> p ∈ ps -> slot_string d0 (param_id p) = None ->
  (s_dict s).[param_id p] = d0.[param_id p] /\ render_param (s_dict s) p = inr None.
Proof.
  intros Hs Hp Hns. pose proof (sess_inv_reachable _ _ Hs) as Hinv.
  pose proof (inv_frozen _ _ Hinv _ Hns) as Hfz. split; [done|].
  destruct (declared_has_slot _ _ _ Hinv Hp) as [e He].
  rewrite /slot_string -Hfz He /= in Hns.
  destruct (render_param_with_cases (fun _ _ => None) (s_dict s) p)
    as [[? _] | [(e' & str & He' & Hv & _) | (e' & He' & _ & Hr)]]; [congruence| |].
  - rewrite He in He'. simplify_eq. by rewrite Hv in Hns.
  - exact Hr.
Qed.

(** C19. A ['string'] parameter whose slot holds a string can be given any
    text: from a reachable session, a change of its control followed by a
    render reaches a session whose slot holds that text. *)
Theorem session_editable s i p t :
  reachable props s -> ps !! i = Some p -> param_type p = "string" ->
  is_Some (slot_string (s_dict s) (param_id p)) ->
  exists s', rtc (step props) s s' /\ slot_string (s_dict s') (param_id p) = Some t.
Proof.
  intros Hs Hi Ht Hstr. pose proof (sess_inv_reachable _ _ Hs) as Hinv.
  pose proof (inv_view _ _ Hinv) as Hv. apply renderParams_with_Forall2 in Hv.
  destruct (Forall2_lookup_l _ _ _ _ _ Hv Hi) as (x & Hx & Hr).
  destruct Hstr as [str Hstr]. rewrite /slot_string in Hstr.
  destruct ((s_dict s).[param_id p]) as [e|] eqn:He; [|done]. simpl in Hstr.
  destruct (de_value e) as [[]|] eqn:Hve; simplify_eq.
  destruct (render_param_with_cases (fun _ _ => None) (s_dict s) p)
    as [[? _] | [(e' & s' & He' & Hv' & _ & Hr') | (e' & He' & Hc & _)]];
    [congruence| |rewrite He in He'; simplify_eq; rewrite Hve in Hc; naive_solver].
  change (render_param_with (fun _ _ => None) (s_dict s) p) with (render_param (s_dict s) p) in Hr, Hr'.
  rewrite Hr' in Hr. simplify_eq.
  destruct (render_param_some _ _ _ Hr') as (_ & _ & Hcb).
  set (s1 := mkSession (s_dict s) (s_queue s ++ [onParamInputChange (VString t) (param_id p)])
                       (s_view s) (s_log s)).
  assert (Hs1 : step props s s1)
    by (apply (step_change _ _ i t); by rewrite /change_event Hx Hcb).
  destruct (rerender_ok props s1) as [s2 Hs2].
  { apply sess_inv_reachable. by eapply reachable_step. }
  exists s2. split; [eapply rtc_l; [exact Hs1|]; by apply rtc_once, step_render|].
  revert Hs2. rewrite /rerender /s1 apply_updates_snoc.
  destruct (renderParams _ _); intros; simplify_eq. cbn [s_dict].
  rewrite update_slot_string; [by rewrite decide_True|].
  apply apply_updates_preserves; [apply Hinv|apply Hinv].
Qed.

(** C20. Batching does not matter: two edits queued before one render give
    the same session as the first edit rendered, then the second edit made
    in the new controls and rendered.  The functional updater of line 74
    makes the second edit start from the result of the first. *)
Theorem session_batch s i j t1 t2 s1 s2 s3 :
  reachable props s -> s_queue s = [] ->
  change_event s i t1 = Some s1 -> change_event s1 j t2 = Some s2 ->
  rerender props s2 = inr s3 ->
  exists s1' s2', rerender props s1 = inr s1' /\ change_event s1' j t2 = Some s2' /\
                  rerender props s2' = inr s3.
Proof.
  intros Hs Hq H1 H2 H3. pose proof (sess_inv_reachable _ _ Hs) as Hinv.
  assert (Hs1 : reachable props s1) by (eapply reachable_step; [exact Hs|by econstructor]).
  revert H1. rewrite /change_event Hq.
  destruct (s_view s !! i) as [[el1|]|] eqn:Hi; intros; simplify_eq.
  revert H2. rewrite /change_event /=.
  destruct (s_view s !! j) as [[el2|]|] eqn:Hj; intros; simplify_eq.
  destruct (view_control _ _ _ _ Hinv Hj) as (pj & Hpj & Hrj).
  pose proof (sess_inv_reachable _ _ Hs1) as Hinv1.
  pose proof (apply_updates_preserves _ _ (inv_wf _ _ Hinv1) (inv_queue _ _ Hinv1)) as Hpres.
  cbn [s_dict s_queue] in Hpres.
  destruct (control_persists _ _ _ _ Hrj Hpres) as (el2' & Hrj' & Hcb).
  destruct (rerender_ok props _ Hinv1) as [s1' Hr1].
  pose proof Hr1 as Hr1'. revert Hr1'. rewrite /rerender /=.
  destruct (renderParams ps (el_onChange el1 t1 (s_dict s))) as [|v1] eqn:Hv1;
    intros; simplify_eq.
  apply renderParams_with_Forall2 in Hv1 as Hf1.
  destruct (Forall2_lookup_l _ _ _ _ _ Hf1 Hpj) as (x & Hx & Hrx).
  change (render_param_with _ _ pj) with (render_param (el_onChange el1 t1 (s_dict s)) pj) in Hrx.
  rewrite Hrj' in Hrx. simplify_eq.
  eexists _, _. split; [reflexivity|].
  split; [by rewrite /change_event /= Hx|].
  rewrite -H3 /rerender /apply_updates. cbn [s_queue s_dict s_log fold_left app].
  by rewrite Hcb.
Qed.

(** C24. Every model that "get model" logs in a reachable session lists the
    entries of the initial [getModel]: the same ids and names, in the same
    order.  Edits change values only; they never drop, add, reorder or
    rename an entry. *)
Theorem session_log_shape s m :
  reachable props s -> m ∈ s_log s -> entry_key <$> m = entry_key <$> getModel d0.
Proof.
  intros Hs Hm. pose proof (inv_log _ _ (sess_inv_reachable _ _ Hs)) as Hl.
  rewrite Forall_forall in Hl. by apply Hl.
Qed.

(** C25. With unique array-index ids and initial values for declared ids
    only, every model logged in a reachable session lists one entry per
    declared parameter, in ascending id order, whatever edits came before. *)
Theorem session_log_order s m :
  NoDup (param_ids ps) -> Forall is_array_index (param_ids ps) ->
  value_ids (paramValues (model props)) ⊆ param_ids ps ->
  reachable props s -> m ∈ s_log s ->
  de_id <$> m = Some <$> sort_keys (param_ids ps).
Proof.
  intros Hnd Hidx Hsub Hs Hm. pose proof (inv_log _ _ (sess_inv_reachable _ _ Hs)) as Hl.
  rewrite Forall_forall in Hl. specialize (Hl m Hm).
  apply (f_equal (fmap fst)) in Hl. rewrite -!list_fmap_compose in Hl.
  transitivity ((fst ∘ entry_key) <$> m); [done|]. rewrite Hl.
  rewrite /getModel /obj_values init_dict_own_keys //.
  apply omap_get_ids. intros k Hk. apply init_dict_slot_id. by rewrite sort_keys_perm in Hk.
Qed.
End session_theorems.

(** ** Witnesses on the demonstration and on the scenario of the specification *)

(** The editor mounted by [App] (lines 116-145), and the same editor mounted
    with the model of the specification's scenario (only parameter 1 has a
    value). *)
Definition spec_props : Props := mkProps App_params spec_model.

Definition mounted (props : Props) : Session :=
  match mount props with inr s => s | inl _ => mkSession [] [] [] [] end.

Definition after_change (s : Session) (i : nat) (t : string) : Session :=
  match change_event s i t with Some s' => s' | None => s end.

Definition after_render (props : Props) (s : Session) : Session :=
  match rerender props s with inr s' => s' | inl _ => s end.

Lemma mounted_reachable props s0 : mount props = inr s0 -> reachable props s0.
Proof. intros. exists s0. split; [done | apply rtc_refl]. Qed.

Lemma session_keys_witness :
  reachable App_props (mounted App_props) /\
  dict_keys (s_dict (mounted App_props)) = dict_keys (init_dict App_params App_model).
Proof.
  assert (H : reachable App_props (mounted App_props)) by (apply mounted_reachable; reflexivity).
  split; [exact H | exact (session_keys _ _ H)].
Defined.

Lemma session_keys_declared_witness :
  value_ids (paramValues App_model) ⊆ param_ids App_params /\
  reachable App_props (mounted App_props) /\
  dict_keys (s_dict (mounted App_props)) = list_to_set (param_ids App_params).
Proof.
  assert (H1 : value_ids (paramValues App_model) ⊆ param_ids App_params) by decide_by_eval.
  assert (H2 : reachable App_props (mounted App_props)) by (apply mounted_reachable; reflexivity).
  split; [exact H1|]. split; [exact H2 | exact (session_keys_declared App_props _ H1 H2)].
Defined.

Lemma session_no_control_forever_witness :
  reachable spec_props (mounted spec_props) /\ App_param2 ∈ App_params /\
  slot_string (init_dict App_params spec_model) 2 = None /\
  (s_dict (mounted spec_props)).[2] = (init_dict App_params spec_model).[2] /\
  render_param (s_dict (mounted spec_props)) App_param2 = inr None.
Proof.
  assert (H1 : reachable spec_props (mounted spec_props)) by (apply mounted_reachable; reflexivity).
  assert (H2 : App_param2 ∈ App_params) by (right; left).
  assert (H3 : slot_string (init_dict App_params spec_model) 2 = None) by reflexivity.
  split; [exact H1|]. split; [exact H2|]. split; [exact H3|].
  exact (session_no_control_forever spec_props _ _ H1 H2 H3).
Defined.

Lemma session_editable_witness :
  reachable App_props (mounted App_props) /\ App_params !! 1%nat = Some App_param2 /\
  param_type App_param2 = "string" /\
  is_Some (slot_string (s_dict (mounted App_props)) 2) /\
  exists s', rtc (step App_props) (mounted App_props) s' /\ slot_string (s_dict s') 2 = Some "миди".
Proof.
  assert (H1 : reachable App_props (mounted App_props)) by (apply mounted_reachable; reflexivity).
  assert (H2 : App_params !! 1%nat = Some App_param2) by reflexivity.
  assert (H3 : param_type App_param2 = "string") by reflexivity.
  assert (H4 : is_Some (slot_string (s_dict (mounted App_props)) 2)) by (eexists; reflexivity).
  split; [exact H1|]. split; [exact H2|]. split; [exact H3|]. split; [exact H4|].
  exact (session_editable App_props _ _ _ "миди" H1 H2 H3 H4).
Defined.

Lemma session_batch_witness :
  reachable App_props (mounted App_props) /\ s_queue (mounted App_props) = [] /\
  change_event (mounted App_props) 0 "будничное" =
    Some (after_change (mounted App_props) 0 "будничное") /\
  change_event (after_change (mounted App_props) 0 "будничное") 1 "миди" =
    Some (after_change (after_change (mounted App_props) 0 "будничное") 1 "миди") /\
  rerender App_props (after_change (after_change (mounted App_props) 0 "будничное") 1 "миди") =
    inr (after_render App_props
           (after_change (after_change (mounted App_props) 0 "будничное") 1 "миди")) /\
  exists s1' s2',
    rerender App_props (after_change (mounted App_props) 0 "будничное") = inr s1' /\
    change_event s1' 1 "миди" = Some s2' /\
    rerender App_props s2' =
      inr (after_render App_props
             (after_change (after_change (mounted App_props) 0 "будничное") 1 "миди")).
Proof.
  assert (H1 : reachable App_props (mounted App_props)) by (apply mounted_reachable; reflexivity).
  assert (H2 : s_queue (mounted App_props) = []) by reflexivity.
  assert (H3 : change_event (mounted App_props) 0 "будничное" =
                 Some (after_change (mounted App_props) 0 "будничное")) by reflexivity.
  assert (H4 : change_event (after_change (mounted App_props) 0 "будничное") 1 "миди" =
                 Some (after_change (after_change (mounted App_props) 0 "будничное") 1 "миди"))
    by reflexivity.
  assert (H5 : rerender App_props
                 (after_change (after_change (mounted App_props) 0 "будничное") 1 "миди") =
               inr (after_render App_props
                      (after_change (after_change (mounted App_props) 0 "будничное") 1 "миди")))
    by reflexivity.
  split; [exact H1|]. split; [exact H2|]. split; [exact H3|]. split; [exact H4|].
  split; [exact H5 | exact (session_batch App_props _ _ _ _ _ _ _ _ H1 H2 H3 H4 H5)].
Defined.

(** The demonstration after typing "миди" into the second control, a
    re-render and a click on "get model". *)
Definition edited_and_logged : Session :=
  click_get_model (after_render App_props (after_change (mounted App_props) 1 "миди")).

(** The model that click logs. *)
Definition logged_model : list DictEntry :=
  [mkDictEntry (Some 1) (Some "Назначение") (Some (VString "повседневное"));
   mkDictEntry (Some 2) (Some "Длина") (Some (VString "миди"))].

Lemma edited_and_logged_reachable : reachable App_props edited_and_logged.
Proof.
  exists (mounted App_props). split; [reflexivity|].
  eapply rtc_l; [apply (step_change _ _ 1 "миди"); reflexivity|].
  eapply rtc_l; [apply step_render; reflexivity|].
  apply rtc_once, step_click.
Qed.

Lemma session_log_shape_witness :
  reachable App_props edited_and_logged /\ logged_model ∈ s_log edited_and_logged /\
  entry_key <$> logged_model = entry_key <$> getModel (init_dict App_params App_model).
Proof.
  pose proof edited_and_logged_reachable as H1.
  assert (H2 : logged_model ∈ s_log edited_and_logged) by (rewrite (_ : s_log edited_and_logged = [logged_model]); [left | reflexivity]).
  split; [exact H1|]. split; [exact H2 | exact (session_log_shape App_props _ _ H1 H2)].
Defined.

Lemma session_log_order_witness :
  NoDup (param_ids App_params) /\ Forall is_array_index (param_ids App_params) /\
  value_ids (paramValues App_model) ⊆ param_ids App_params /\
  reachable App_props edited_and_logged /\ logged_model ∈ s_log edited_and_logged /\
  de_id <$> logged_model = Some <$> sort_keys (param_ids App_params).
Proof.
  assert (H1 : NoDup (param_ids App_params)) by decide_by_eval.
  assert (H2 : Forall is_array_index (param_ids App_params)) by decide_by_eval.
  assert (H3 : value_ids (paramValues App_model) ⊆ param_ids App_params) by decide_by_eval.
  pose proof edited_and_logged_reachable as H4.
  assert (H5 : logged_model ∈ s_log edited_and_logged) by (rewrite (_ : s_log edited_and_logged = [logged_model]); [left | reflexivity]).
  split; [exact H1|]. split; [exact H2|]. split; [exact H3|]. split; [exact H4|].
  split; [exact H5 | exact (session_log_order App_props _ _ H1 H2 H3 H4 H5)].
Defined.
