(* ===== verification/Spec.v ===== *)
(** * The abstract reconciler of the specification, and refinement

    The specification (section 4.2) describes the editor state as a map from
    every declared id to an optional value, with [initialize] (declared ids
    get an empty slot, initial values of declared ids are overlaid, values of
    undeclared ids are dropped) and [setValue] (replace one slot, or fail
    with [UnknownParameterError] for an id without a slot).  This file states
    that contract on stdpp's [gmap] and proves that the code implements it:
    the dictionary built by the [useState] initialiser abstracts to
    [abs_initialize] when the model names declared ids only, one
    [onParamInputChange] update simulates one successful [abs_setValue], and
    every reachable session of the running editor abstracts to a state the
    abstract machine reaches by [setValue] steps. *)

From S2P Require Import Prelude JsObject Types Editor Render Session.

(** ** The abstract machine *)

Inductive AbsError := UnknownParameterError (id : Z).

(** One empty slot per declared id. *)
Definition abs_declare (ps : list Param) : gmap Z (option Val) :=
  foldl (fun s p => <[param_id p := None]> s) ∅ ps.

(** [initialize(declarations, initialModel)]. *)
Definition abs_initialize (ps : list Param) (m : Model) : gmap Z (option Val) :=
  foldl (fun s pv => if decide (is_Some (s !! paramId pv))
                     then <[paramId pv := Some (value pv)]> s else s)
        (abs_declare ps) (paramValues m).

(** [setValue(state, parameterId, newValue)]. *)
Definition abs_setValue (s : gmap Z (option Val)) (id : Z) (v : Val)
    : AbsError + gmap Z (option Val) :=
  if decide (is_Some (s !! id)) then inr (<[id := Some v]> s)
  else inl (UnknownParameterError id).

(** A successful [setValue] with a text, as the text control produces. *)
Definition abs_step (s s' : gmap Z (option Val)) : Prop :=
  exists id t, abs_setValue s id (VString t) = inr s'.

(** The abstraction of a dictionary: each key maps to the value of its entry. *)
Definition refines (d : Dict) (a : gmap Z (option Val)) : Prop :=
  forall k, de_value <$> d.[k] = a !! k.

(** ** The abstract initial state *)

Section abs_lemmas.
  Implicit Types (ps : list Param) (m : Model) (k : Z).

Lemma abs_declare_lookup ps k :
  abs_declare ps !! k = if decide (k ∈ param_ids ps) then Some None else None.
Proof.
  induction ps as [|p ps IH] using rev_ind; [done|].
  rewrite /abs_declare foldl_snoc -/(abs_declare ps) lookup_insert IH.
  rewrite /param_ids fmap_app. repeat case_decide; set_solver.
Qed.

Lemma abs_initialize_lookup ps m k :
  abs_initialize ps m !! k =
    if decide (k ∈ param_ids ps) then Some (last_value (paramValues m) k) else None.
Proof.
  rewrite /abs_initialize. destruct m as [pvs]. simpl.
  revert k. induction pvs as [|pv pvs IH] using rev_ind; intros k.
  - rewrite /= abs_declare_lookup. repeat case_decide; done.
  - rewrite foldl_snoc last_value_snoc.
    set (s := foldl _ (abs_declare ps) pvs) in *.
    destruct (decide (is_Some (s !! paramId pv))) as [Hin|Hout].
    + rewrite lookup_insert IH. rewrite IH in Hin.
      repeat case_decide; subst; by try (destruct Hin as [? ?]; discriminate).
    + rewrite IH. rewrite IH in Hout. repeat case_decide; subst; try done.
      exfalso. by apply Hout.
Qed.
End abs_lemmas.

(** ** Refinement *)

Section refinement.
  Implicit Types (ps : list Param) (m : Model) (d : Dict) (a : gmap Z (option Val)).

(** At one key: the slot of the initial dictionary implements the abstract
    initial slot unless the key has an initial value but no declaration. *)
Lemma init_slot_refines ps m k :
  (k ∈ value_ids (paramValues m) -> k ∈ param_ids ps) ->
  de_value <$> (init_dict ps m).[k] = abs_initialize ps m !! k.
Proof.
  intros Hsub. rewrite init_dict_get abs_initialize_lookup.
  destruct (last_value _ k) as [v|] eqn:Hv.
  - rewrite decide_True; [by destruct (last_param ps k)|].
    apply Hsub, last_value_is_Some. by rewrite Hv.
  - destruct (last_param ps k) as [p|] eqn:Hp; simpl.
    + rewrite decide_True //. apply last_param_is_Some. by rewrite Hp.
    + rewrite decide_False //. rewrite -last_param_is_Some Hp. by intros [? ?].
Qed.

(** Updating a slot the abstract state has, on both sides. *)
Lemma refines_insert d a id v :
  obj_wf d -> refines d a ->
  refines (onParamInputChange v id d) (<[id := Some v]> a).
Proof.
  intros Hwf Hr k. rewrite (onParamInputChange_equiv _ _ _ Hwf) obj_get_set lookup_insert.
  repeat case_decide; subst; try congruence; try apply Hr. by destruct (d.[id]).
Qed.

(** C21. The dictionary built by the [useState] initialiser implements
    [initialize] when every initial value names a declared parameter: each id
    maps to the value of its entry, declared ids without value to an empty
    slot, other ids to nothing. *)
Theorem init_dict_refines ps m :
  value_ids (paramValues m) ⊆ param_ids ps ->
  refines (init_dict ps m) (abs_initialize ps m).
Proof.
  intros Hsub k. apply init_slot_refines. apply Hsub.
Qed.

(** C22. One update queued by [onParamInputChange] simulates one successful
    [setValue]: the updated dictionary implements the new abstract state. *)
Theorem onParamInputChange_refines d a a' id v :
  obj_wf d -> refines d a -> abs_setValue a id v = inr a' ->
  refines (onParamInputChange v id d) a'.
Proof.
  intros Hwf Hr. rewrite /abs_setValue. case_decide; intros; simplify_eq.
  by apply refines_insert.
Qed.

Lemma apply_updates_refines q d a :
  obj_wf d -> Forall (string_update d) q -> refines d a ->
  exists a', rtc abs_step a a' /\ refines (apply_updates q d) a'.
Proof.
  revert d a. induction q as [|u q IH]; intros d a Hwf Hq Hr; [by exists a|].
  inversion Hq as [|? ? Hu Hq']; subst. pose proof Hu as (t & id & Hs & ->).
  assert (Hset : abs_setValue a id (VString t) = inr (<[id := Some (VString t)]> a)).
  { rewrite /abs_setValue decide_True // -Hr. destruct (slot_string_is_Some _ _ Hs) as [? ->].
    by eexists. }
  destruct (preserves_update d _ Hwf Hu) as (Hwf' & _ & _ & Hstr & _).
  destruct (IH (onParamInputChange (VString t) id d) (<[id := Some (VString t)]> a))
    as (a'' & Hsteps & Hr''); [done| |by apply refines_insert|].
  - eapply Forall_impl; [exact Hq'|]. intros u' (t' & id' & Hs' & ->).
    exists t', id'. split; [by apply Hstr|done].
  - exists a''. split; [|done]. eapply rtc_l; [|exact Hsteps]. by exists id, t.
Qed.

(** C23. Every reachable session of the running editor implements a state
    that the abstract machine reaches from [initialize] by successful
    [setValue] steps, when the initial model names declared ids only. *)
Theorem session_refines props s :
  value_ids (paramValues (model props)) ⊆ param_ids (params props) ->
  reachable props s ->
  exists a, rtc abs_step (abs_initialize (params props) (model props)) a /\
            refines (s_dict s) a.
Proof.
  intros Hsub (s0 & Hm & Hrtc).
  pose proof (mounted_reachable _ _ Hm) as Hr0.
  refine (rtc_ind_r (fun y => exists a, rtc abs_step
            (abs_initialize (params props) (model props)) a /\ refines (s_dict y) a)
          s0 _ _ s Hrtc).
  - exists (abs_initialize (params props) (model props)). split; [done|].
    revert Hm. rewrite /mount. destruct (renderParams _ _); intros; simplify_eq.
    intros k. apply init_slot_refines. apply Hsub.
  - intros y z Hxy Hyz (a & Hsteps & Hr).
    assert (Hreach : reachable props y) by (exists s0; split; [done|exact Hxy]).
    pose proof (sess_inv_reachable _ _ Hreach) as Hinv.
    destruct Hyz as [y i t z Hc | y z Hre | y].
    + exists a. split; [done|]. revert Hc. rewrite /change_event.
      destruct (s_view y !! i) as [[]|]; intros; simplify_eq. done.
    + destruct (apply_updates_refines (s_queue y) (s_dict y) a (inv_wf _ _ Hinv)
                  (inv_queue _ _ Hinv) Hr) as (a' & Hsteps' & Hr').
      exists a'. split; [by etrans|].
      revert Hre. rewrite /rerender. destruct (renderParams _ _); intros; simplify_eq. done.
    + by exists a.
Qed.
End refinement.

(** ** Witnesses *)

Lemma init_dict_refines_witness :
  value_ids (paramValues App_model) ⊆ param_ids App_params /\
  refines (init_dict App_params App_model) (abs_initialize App_params App_model).
Proof.
  assert (H : value_ids (paramValues App_model) ⊆ param_ids App_params) by decide_by_eval.
  split; [exact H | exact (init_dict_refines _ _ H)].
Defined.

(** One declared, empty slot. *)
Definition one_slot : Dict := [(1, mkDictEntry (Some 1) (Some "Назначение") None)].

Lemma onParamInputChange_refines_witness :
  obj_wf one_slot /\ refines one_slot {[1 := None]} /\
  abs_setValue {[1 := None]} 1 (VString "x") = inr (<[1 := Some (VString "x")]> {[1 := None]}) /\
  refines (onParamInputChange (VString "x") 1 one_slot) (<[1 := Some (VString "x")]> {[1 := None]}).
Proof.
  assert (H1 : obj_wf one_slot) by decide_by_eval.
  assert (H2 : refines one_slot {[1 := None]}).
  { intros k. rewrite /one_slot /=. case_decide as Hk.
    - subst. by rewrite lookup_singleton_eq.
    - by rewrite lookup_singleton_ne. }
  assert (H3 : abs_setValue {[1 := None]} 1 (VString "x")
               = inr (<[1 := Some (VString "x")]> {[1 := None]})) by (vm_compute; reflexivity).
  split; [exact H1|]. split; [exact H2|]. split; [exact H3|].
  exact (onParamInputChange_refines _ _ _ _ _ H1 H2 H3).
Defined.

Lemma session_refines_witness :
  value_ids (paramValues (model App_props)) ⊆ param_ids (params App_props) /\
  reachable App_props (mounted App_props) /\
  exists a, rtc abs_step (abs_initialize App_params App_model) a /\
            refines (s_dict (mounted App_props)) a.
Proof.
  assert (H1 : value_ids (paramValues (model App_props)) ⊆ param_ids (params App_props))
    by decide_by_eval.
  assert (H2 : reachable App_props (mounted App_props)) by (apply mounted_reachable; reflexivity).
  split; [exact H1|]. split; [exact H2 | exact (session_refines _ _ H1 H2)].
Defined.
